(** * Keystone 5: the list mutation pipeline and the JSON list adapter

    A shallow embedding of the [List] class (access control, hook
    orchestration, nested mutations) and of [JSONListAdapter], with the
    properties of the engine specification established on it.

    JavaScript objects are association lists kept in key-insertion order,
    promises are run to completion in program order, and every [throw] is an
    explicit [Throw] outcome of a state-and-error monad. *)

From Stdlib Require Import String Ascii ZArith List Lia.
From stdpp Require Import base option list strings gmap.

Local Open Scope string_scope.
Local Open Scope list_scope.

(** ** JavaScript values *)

(** Primitive values; numbers are restricted to integers. *)
Inductive prim : Type :=
  | PUndefined
  | PNull
  | PBool (b : bool)
  | PNum (n : Z)
  | PStr (s : string).

Local Unset Elimination Schemes.
Inductive value : Type :=
  | VPrim (p : prim)
  | VArr (l : list value)
  | VObj (o : list (string * value)).
Local Set Elimination Schemes.

(** An object: own enumerable string keys, in insertion order. *)
Abbreviation obj := (list (string * value)).

Abbreviation VUndefined := (VPrim PUndefined).
Abbreviation VNull := (VPrim PNull).
Abbreviation VStr s := (VPrim (PStr s)).

Global Instance prim_eq_dec : EqDecision prim.
Proof. solve_decision. Defined.

(** [a === b] on primitives. *)
Definition prim_eqb (a b : prim) : bool := bool_decide (a = b).

(** [a === b]: arrays and objects are compared by reference, and no two
    values met by the code below share one (items are parsed afresh from
    storage, arguments come from the request). *)
Definition strict_eq (a b : value) : bool :=
  match a, b with
  | VPrim p, VPrim q => prim_eqb p q
  | _, _ => false
  end.

(** Truthiness: [!!v]. *)
Definition prim_truthy (p : prim) : bool :=
  match p with
  | PUndefined | PNull => false
  | PBool b => b
  | PNum n => negb (Z.eqb n 0)
  | PStr s => negb (String.eqb s EmptyString)
  end.

Definition truthy (v : value) : bool :=
  match v with
  | VPrim p => prim_truthy p
  | _ => true
  end.

(** [v === undefined || v === null] *)
Definition is_nullish (v : value) : bool :=
  match v with
  | VPrim PUndefined | VPrim PNull => true
  | _ => false
  end.

(** ** Objects *)

(** [o[k]], [undefined] when the key is absent. *)
Fixpoint obj_get (o : obj) (k : string) : value :=
  match o with
  | [] => VUndefined
  | (k', v) :: o' => if String.eqb k' k then v else obj_get o' k
  end.

(** [k in o] / [Object.prototype.hasOwnProperty.call(o, k)] *)
Fixpoint has_key (o : obj) (k : string) : bool :=
  match o with
  | [] => false
  | (k', _) :: o' => if String.eqb k' k then true else has_key o' k
  end.

(** [{ ...o, [k]: v }]: an existing key keeps its position. *)
Fixpoint obj_set (o : obj) (k : string) (v : value) : obj :=
  match o with
  | [] => [(k, v)]
  | (k', v') :: o' =>
      if String.eqb k' k then (k', v) :: o' else (k', v') :: obj_set o' k v
  end.

(** [{ ...a, ...b }] *)
Definition obj_spread (a b : obj) : obj :=
  fold_left (fun acc kv => obj_set acc (fst kv) (snd kv)) b a.

(** [Object.keys(o)] *)
Definition obj_keys (o : obj) : list string := map fst o.

(** ** Errors and outcomes *)

Inductive operation : Type := Create | Read | Update | Delete.

Definition operation_name (op : operation) : string :=
  match op with
  | Create => "create"
  | Read => "read"
  | Update => "update"
  | Delete => "delete"
  end.

(** [opToType] *)
Definition opToType (op : operation) : string :=
  match op with
  | Read => "query"
  | Create | Update | Delete => "mutation"
  end.

(** The public payload of an [AccessDeniedError]:
    [{ type, target, ...extraData }]. *)
Record access_denied_data : Type := AccessDeniedData {
  ad_type : string;
  ad_target : option string;
  ad_restrictedFields : option (list string)
}.

(** The public payload of a [ValidationFailureError]. *)
Record validation_failure_data : Type := ValidationFailureData {
  vf_messages : list string;
  vf_errors : list value;
  vf_listKey : string;
  vf_operation : operation
}.

Local Unset Elimination Schemes.
Inductive error : Type :=
  | AccessDeniedError (data : access_denied_data) (internalData : obj)
  | ValidationFailureError (data : validation_failure_data)
      (internalErrors : list value) (internalDataData : value)
  | TypeError (msg : string)
  | Error (msg : string)
  (** [new Error(first.message || first.toString())] for the first of
      [errors], with all of them attached as its [errors] property. *)
  | AggregateError (errors : list error).

Local Set Elimination Schemes.

Inductive outcome (A : Type) : Type :=
  | Ret (a : A)
  | Throw (e : error).
Arguments Ret {A} a.
Arguments Throw {A} e.

(** ** The state-and-error monad *)

(** An [async] function over the mutable world [S]: it ends with a value or
    a thrown error, and leaves the world as its effects made it. *)
Definition M (S A : Type) : Type := S -> outcome A * S.

Global Instance M_ret {S} : MRet (M S) := fun A a s => (Ret a, s).

Global Instance M_bind {S} : MBind (M S) := fun A B f m s =>
  match m s with
  | (Ret a, s') => f a s'
  | (Throw e, s') => (Throw e, s')
  end.

Definition throw {S A} (e : error) : M S A := fun s => (Throw e, s).

(** [try { m } catch (error) { h(error) }] *)
Definition try_catch {S A} (m : M S A) (h : error -> M S A) : M S A := fun s =>
  match m s with
  | (Ret a, s') => (Ret a, s')
  | (Throw e, s') => h e s'
  end.

Definition gets {S A} (f : S -> A) : M S A := fun s => (Ret (f s), s).
Definition modify {S} (f : S -> S) : M S unit := fun s => (Ret tt, f s).

(** ** The JSON list adapter *)

Module JSONAdapter.
Section Adapter.

(** [cuid()]: the [n]-th identifier the generator hands out. *)
Variable cuid : nat -> string.

(** [spliceImmutably(items, start, removeNr, add)] of the utilities
    package. *)
Variable spliceImmutably : list obj -> nat -> nat -> list obj -> list obj.

(** Where a descriptor stands in its file. [fs.readFile] on a descriptor
    reads on from there to the end of the file and leaves the descriptor at
    the end. *)
Inductive position : Type := AtStart | AtEnd.

(** [this._fd]. It is set in two places: [_connect] sets it to what
    [fs.open(path)] gives, a descriptor opened without flags, that is for
    reading only, at the start of the file; [disconnect] sets it to [null].
    Before [_connect] it is [undefined]. *)
Inductive descriptor : Type :=
  | NoDescriptor
  | ReadOnly (at_ : position).

(** The backing file as [JSON.parse] reads it from its start (a file that
    does not parse reads as [{}]), the descriptor, and the number of
    identifiers generated so far. *)
Record state : Type := State {
  lists : gmap string (list obj);
  _fd : descriptor;
  cuids : nat
}.

(** What [fs.writeFile] rejects with on a descriptor that was opened for
    reading, and on an argument that is no descriptor; the codes stand for
    the errors. *)
Definition EBADF : error := Error "EBADF: bad file descriptor, write".
Definition ERR_INVALID_ARG_TYPE : error := TypeError "ERR_INVALID_ARG_TYPE".

(** [JSONAdapter.read()]: [JSON.parse(await readFile(this._fd)) || {}],
    with every error caught and read as [{}]. A descriptor at the start of
    the file reads the file and is left at its end; from the end it reads
    the empty text, which does not parse; without a descriptor [readFile]
    rejects. *)
Definition read : M state (gmap string (list obj)) := fun st =>
  match _fd st with
  | ReadOnly AtStart => (Ret (lists st), State (lists st) (ReadOnly AtEnd) (cuids st))
  | ReadOnly AtEnd => (Ret ∅, st)
  | NoDescriptor => (Ret ∅, st)
  end.

(** [JSONAdapter.write(lists)]: [writeFile(this._fd, JSON.stringify(lists))].
    The descriptor is open for reading only, so the write is refused and the
    file stays as it is; so it does without a descriptor. *)
Definition write (l : gmap string (list obj)) : M state unit := fun st =>
  match _fd st with
  | ReadOnly _ => (Throw EBADF, st)
  | NoDescriptor => (Throw ERR_INVALID_ARG_TYPE, st)
  end.

(** [JSONAdapter.readList(listKey)]: [(await this.read())[listKey]],
    [None] standing for [undefined]. *)
Definition readList (listKey : string) : M state (option (list obj)) :=
  l ← read;
  mret (l !! listKey).

(** [JSONAdapter.writeList(listKey, items)] *)
Definition writeList (listKey : string) (items : list obj) : M state unit :=
  l ← read;
  write (<[listKey := items]> l).

Definition next_cuid : M state string := fun st =>
  (Ret (cuid (cuids st)), State (lists st) (_fd st) (S (cuids st))).

(** A method called on [undefined]. *)
Definition undefined_has_no (method : string) : error :=
  TypeError ("Cannot read property '" ++ method ++ "' of undefined").

Definition _read (key : string) : M state (option (list obj)) := readList key.
Definition _write (key : string) (items : list obj) : M state unit :=
  writeList key items.

(** [items.findIndex(p)], [None] standing for [-1]. *)
Fixpoint findIndex {A} (p : A -> bool) (items : list A) : option nat :=
  match items with
  | [] => None
  | x :: rest => if p x then Some 0 else S <$> findIndex p rest
  end.

Definition _create (key : string) (input : obj) : M state obj :=
  items ← _read key;
  id ← next_cuid;
  let data := obj_set input "id" (VStr id) in
  match items with
  | None => throw (undefined_has_no "concat")
  | Some items =>
      _write key (items ++ [data]);;
      mret data
  end.

Definition _delete (key : string) (id : value) : M state (option obj) :=
  read ← _read key;
  match read with
  | None => throw (undefined_has_no "filter")
  | Some read =>
      let oldItem :=
        last (List.filter (fun item => strict_eq (obj_get item "id") id) read) in
      let items :=
        List.filter (fun item => negb (strict_eq (obj_get item "id") id)) read in
      _write key items;;
      mret oldItem
  end.

Definition _update (key : string) (id : value) (data : obj)
  : M state (option obj) :=
  items ← _read key;
  match items with
  | None => throw (undefined_has_no "findIndex")
  | Some items =>
      match findIndex (fun item => strict_eq (obj_get item "id") id) items with
      | None => mret None
      | Some itemIndex =>
          _write key (spliceImmutably items itemIndex 1 [data]);;
          mret (Some data)
      end
  end.

Definition _findAll (key : string) : M state (option (list obj)) := _read key.

Definition _findById (key : string) (id : value) : M state (option obj) :=
  items ← _read key;
  match items with
  | None => throw (undefined_has_no "findIndex")
  | Some items =>
      match findIndex (fun item => strict_eq (obj_get item "id") id) items with
      | None => mret None
      | Some itemIndex => mret (items !! itemIndex)
      end
  end.

Definition _itemsQuery {A} : M state A :=
  throw (Error "JSONAdapter#_itemsQuery() not implemented").

(** [JSONAdapter.dropDatabase()]: [this.write({})] *)
Definition dropDatabase : M state unit := write ∅.

End Adapter.

(** *** The field adapter *)

(** [arr.find(p)]: the first element that passes, [undefined] without one. *)
Definition js_find (p : value -> bool) (arr : list value) : value :=
  default VUndefined (List.find p arr).

(** [JSONFieldAdapter.inConditions(dbPath, f)]: the conditions under the
    keys [path_in] and [path_not_in]. *)
Definition in_condition (f : value -> value) (dbPath : string)
    (candidates : list value) (item : obj) : bool :=
  truthy (js_find (fun s => strict_eq (f s) (obj_get item dbPath)) candidates).

Definition not_in_condition (f : value -> value) (dbPath : string)
    (candidates : list value) (item : obj) : bool :=
  negb (truthy (js_find (fun s => strict_eq (f s) (obj_get item dbPath)) candidates)).

End JSONAdapter.

(** ** The list engine *)

Module Keystone.

(** *** Access rules and storage queries *)

(** A declarative where-clause: its id constraints and its other keys. *)
Record where_clause : Type := Where {
  w_id : prim;
  w_id_not : prim;
  w_id_in : option (list prim);
  w_id_not_in : option (list prim);
  w_other : obj
}.

Definition empty_where : where_clause := Where PUndefined PUndefined None None [].

(** What [getListAccessControlForUser] returns: a boolean or a clause. *)
Inductive access : Type :=
  | AccessBool (b : bool)
  | AccessWhere (w : where_clause).

(** [!!access] *)
Definition access_truthy (a : access) : bool :=
  match a with
  | AccessBool b => b
  | AccessWhere _ => true
  end.

(** [access === true] *)
Definition access_is_true (a : access) : bool :=
  match a with
  | AccessBool true => true
  | _ => false
  end.

(** The properties read off [access]; a boolean has none. *)
Definition access_where (a : access) : where_clause :=
  match a with
  | AccessWhere w => w
  | AccessBool _ => empty_where
  end.

(** [arr.includes(id)] *)
Definition includes (arr : list prim) (id : prim) : bool :=
  existsb (prim_eqb id) arr.

(** The argument of [itemsQuery] and [itemsQueryMeta]. *)
Record query_args : Type := QueryArgs {
  q_first : option nat;
  q_where : where_clause;
  q_other : obj
}.

Inductive storage_call : Type :=
  | FindById (id : prim)
  | ItemsQuery (args : query_args)
  | ItemsQueryMeta (args : query_args)
  | CreateItem (data : obj)
  | UpdateItem (id : prim) (data : obj)
  | DeleteItem (id : value).

(** *** Hooks *)

(** A hook is taken for what it does to the engine: the validation errors it
    adds, the value it returns, the error it throws. Queries a hook issues
    of its own through [actions] are requests of their own. *)

Inductive hook_name : Type :=
  | validateInput
  | validateDelete
  | beforeChange
  | beforeDelete
  | afterChange
  | afterDelete.

(** The argument object of a hook ([context] and [actions] apart). *)
Record hook_args : Type := HookArgs {
  resolvedData : option obj;
  existingItem : option obj;
  originalInput : value;
  updatedItem : option obj
}.

(** An entry pushed by [addFieldValidationError] or [addValidationError]. *)
Record validation_error : Type := ValidationError {
  msg : string;
  errorData : value;
  internalData : value
}.

(** What one hook invocation does: the validation errors it adds through the
    callback it is given, and the error it throws, if any. *)
Record hook_result : Type := HookResult {
  added : list validation_error;
  thrown : option error
}.

Inductive participant : Type :=
  | FieldBuiltin (path : string)
  | FieldHook (path : string)
  | ListHook.

(** What the engine does that the outside can observe, in order. *)
Inductive event : Type :=
  | Storage (listKey : string) (call : storage_call)
  | ResolveInputCall (listKey : string) (who : participant) (args : hook_args)
  | HookCall (listKey : string) (hookName : hook_name) (who : participant)
      (args : hook_args).

Definition is_storage (e : event) : bool :=
  match e with
  | Storage _ _ => true
  | _ => false
  end.

Definition is_storage_write (e : event) : bool :=
  match e with
  | Storage _ (CreateItem _) | Storage _ (UpdateItem _ _)
  | Storage _ (DeleteItem _) => true
  | _ => false
  end.

(** Hooks run over the event log alone. *)
Abbreviation HookM := (M (list event)).

Definition emit (e : event) : HookM unit := modify (fun tr => tr ++ [e]).

(** The request context. *)
Record context : Type := MkContext {
  getListAccessControlForUser : string -> operation -> access;
  getFieldAccessControlForUser : string -> string -> option obj -> operation -> bool;
  authedItem : option obj;
  authedListKey : value
}.

(** *** The world *)

(** [() => this._afterChange(...)] / [() => this._afterDelete(...)] *)
Definition after_hook : Type := unit -> HookM unit.

(** The [mutationState] object shared by a root mutation and its nested ones. *)
Record mutation_state : Type := MutationState {
  afterChangeStack : list after_hook;
  queues : obj;
  transaction : obj
}.

(** Modelled from the spec: the state of a handle made by
    [createLazyDeferred] of the utilities package, "resolved with the created
    Item on storage success, rejected on storage failure". *)
Inductive deferred : Type :=
  | Pending
  | Resolved (item : obj)
  | Rejected (e : error).

Section Engine.

Context {Store : Type}.

(** The storage, the event log, and the heap of the objects the engine
    allocates and shares by reference. *)
Record world : Type := World {
  store : Store;
  trace : list event;
  mutationStates : list mutation_state;
  deferreds : list deferred
}.

Definition set_trace (w : world) (tr : list event) : world :=
  World (store w) tr (mutationStates w) (deferreds w).
Definition set_store (w : world) (st : Store) : world :=
  World st (trace w) (mutationStates w) (deferreds w).
Definition set_mutationStates (w : world) (ms : list mutation_state) : world :=
  World (store w) (trace w) ms (deferreds w).
Definition set_deferreds (w : world) (ds : list deferred) : world :=
  World (store w) (trace w) (mutationStates w) ds.

Definition log (e : event) (w : world) : world := set_trace w (trace w ++ [e]).

(** Runs hooks in the world: only its event log changes. *)
Definition in_trace {A} (m : HookM A) : M world A := fun w =>
  let (r, tr) := m (trace w) in (r, set_trace w tr).

(** *** Fields, adapters and lists *)

(** A field implementation. [method] is [field[hookName]], the built-in
    implementation of a phase; [hooks] is [field.hooks[hookName]], the
    user-supplied one. The three relationship capabilities call back into
    the engine with the shared mutation state. *)
Record Field : Type := MkField {
  path : string;
  isRequired : bool;
  isRelationship : bool;
  getDefaultValue : value;
  resolveInput : context -> hook_args -> outcome value;
  method : hook_name -> context -> hook_args -> hook_result;
  hooks_resolveInput : option (context -> hook_args -> outcome value);
  hooks : hook_name -> option (context -> hook_args -> hook_result);
  resolveNestedOperations :
    value -> option obj -> context -> option nat -> nat -> M world value;
  convertResolvedOperationsToFieldValue : value -> option obj -> value;
  registerBacklink : value -> obj -> nat -> M world unit
}.

(** The storage primitive of one list. *)
Record ListAdapter : Type := MkListAdapter {
  findById : prim -> Store -> outcome (option obj);
  itemsQuery : query_args -> Store -> outcome (list obj);
  itemsQueryMeta : query_args -> Store -> outcome Z;
  create : obj -> Store -> outcome obj * Store;
  update : prim -> obj -> Store -> outcome (option obj) * Store;
  delete : value -> Store -> outcome (option obj) * Store
}.

Record gql_names : Type := GqlNames {
  itemQueryName : string;
  listQueryName : string;
  listQueryMetaName : string;
  authenticatedQueryName : string;
  createMutationName : string;
  createManyMutationName : string;
  updateMutationName : string;
  updateManyMutationName : string;
  deleteMutationName : string;
  deleteManyMutationName : string
}.

Record List : Type := MkList {
  key : string;
  fields : list Field;
  list_resolveInput : option (context -> hook_args -> outcome obj);
  list_hooks : hook_name -> option (context -> hook_args -> hook_result);
  adapter : ListAdapter;
  gqlNames : gql_names
}.

(** [this.fieldsByPath[path]] *)
Definition fieldsByPath (L : List) (p : string) : option Field :=
  find (fun f => String.eqb (path f) p) (fields L).

(** A read of the storage, logged. *)
Definition storage_read {A} (L : List) (call : storage_call)
    (f : Store -> outcome A) : M world A := fun w =>
  (f (store w), log (Storage (key L) call) w).

(** A write to the storage, logged. *)
Definition storage_write {A} (L : List) (call : storage_call)
    (f : Store -> outcome A * Store) : M world A := fun w =>
  let (r, st) := f (store w) in
  (r, log (Storage (key L) call) (set_store w st)).

Definition adapter_findById (L : List) (id : prim) : M world (option obj) :=
  storage_read L (FindById id) (findById (adapter L) id).
Definition adapter_itemsQuery (L : List) (args : query_args) : M world (list obj) :=
  storage_read L (ItemsQuery args) (itemsQuery (adapter L) args).
Definition adapter_create (L : List) (data : obj) : M world obj :=
  storage_write L (CreateItem data) (create (adapter L) data).
Definition adapter_update (L : List) (id : prim) (data : obj)
  : M world (option obj) :=
  storage_write L (UpdateItem id data) (update (adapter L) id data).
Definition adapter_delete (L : List) (id : value) : M world (option obj) :=
  storage_write L (DeleteItem id) (delete (adapter L) id).

(** *** Helpers of the utilities package *)

(** Modelled from the spec: [unique] of the utilities package, the array
    without its repeated ids, first occurrences kept. *)
Fixpoint unique (ids : list prim) : list prim :=
  match ids with
  | [] => []
  | id :: rest => id :: List.filter (fun x => negb (prim_eqb x id)) (unique rest)
  end.

(** Modelled from the spec: [intersection] of the utilities package, the
    ids of the first array that the second one includes. *)
Definition intersection (a b : list prim) : list prim :=
  unique (List.filter (includes b) a).

(** Modelled from the spec: [resolveAllKeys] of the utilities package, under
    which "a single failing field does not cancel sibling field hooks already
    in flight — all are awaited so error aggregation sees every failure".
    Runs [action] on every field, to the end, in the order of the fields, and
    sorts the results from the errors. *)
Fixpoint settle_all {S A} (fs : list Field) (action : Field -> M S A) (s : S)
  : list (string * A) * list error * S :=
  match fs with
  | [] => ([], [], s)
  | f :: rest =>
      match action f s with
      | (Ret a, s1) =>
          let '(results, errors, s2) := settle_all rest action s1 in
          ((path f, a) :: results, errors, s2)
      | (Throw e, s1) =>
          let '(results, errors, s2) := settle_all rest action s1 in
          (results, e :: errors, s2)
      end
  end.

(** [_mapToFields(fields, action)]: [resolveAllKeys] over the object
    [arrayToObject] builds. Every action is awaited; the call throws once,
    at the end, when some action threw. *)
Definition _mapToFields {S A} (fs : list Field) (action : Field -> M S A)
  : M S (list (string * A)) := fun s =>
  let '(results, errors, s') := settle_all fs action s in
  match errors with
  | [] => (Ret results, s')
  | _ :: _ => (Throw (AggregateError errors), s')
  end.

(** [Promise.all(xs.map(f))]: every promise runs; the call throws the first
    failure. *)
Fixpoint promise_all {S A B} (f : A -> M S B) (xs : list A) : M S (list B) :=
  match xs with
  | [] => mret []
  | x :: rest => fun s =>
      match f x s with
      | (Ret b, s1) =>
          match promise_all f rest s1 with
          | (Ret bs, s2) => (Ret (b :: bs), s2)
          | (Throw e, s2) => (Throw e, s2)
          end
      | (Throw e, s1) => (Throw e, snd (promise_all f rest s1))
      end
  end.

(** [_fieldsFromObject(obj)] *)
Definition _fieldsFromObject (L : List) (o : obj) : list Field :=
  omap (fieldsByPath L) (obj_keys o).

(** [mergeWhereClause(args, access)] of the utilities package. *)
Variable mergeWhereClause : query_args -> access -> query_args.

(** *** Access control *)

(** [context.authedItem && context.authedItem.id] *)
Definition authedId (ctx : context) : value :=
  match authedItem ctx with
  | None => VUndefined
  | Some item => obj_get item "id"
  end.

Definition _throwAccessDenied {S A} (op : operation) (ctx : context)
    (target : option string) (extraInternalData : obj)
    (extraData : option (list string)) : M S A :=
  throw (AccessDeniedError
    (AccessDeniedData (opToType op) target extraData)
    (obj_spread
       [("authedId", authedId ctx); ("authedListKey", authedListKey ctx)]
       extraInternalData)).

(** The paths [checkFieldAccess] collects: for every item to write, the
    declared fields present in its data that the caller may not write. *)
Definition restrictedFields (L : List) (op : operation) (ctx : context)
    (itemsToUpdate : list (option obj * obj)) : list string :=
  flat_map (fun item =>
    let '(existingItem, data) := item in
    map path
      (List.filter
         (fun field =>
            negb (getFieldAccessControlForUser ctx (key L) (path field)
                    existingItem op))
         (List.filter (fun field => has_key data (path field)) (fields L))))
    itemsToUpdate.

Definition checkFieldAccess {S} (L : List) (op : operation)
    (itemsToUpdate : list (option obj * obj)) (ctx : context)
    (gqlName : option string) (extraData : obj) : M S unit :=
  let restricted := restrictedFields L op ctx itemsToUpdate in
  match restricted with
  | [] => mret tt
  | _ :: _ => _throwAccessDenied op ctx gqlName extraData (Some restricted)
  end.

Definition checkListAccess {S} (L : List) (ctx : context) (op : operation)
    (gqlName : option string) (extraInternalData : obj) : M S access :=
  let access := getListAccessControlForUser ctx (key L) op in
  if access_truthy access then mret access
  else _throwAccessDenied op ctx gqlName extraInternalData None.

(** The test of [getAccessControlledItem]: the id constraints of the
    clause exclude [id]. *)
Definition excludes_id (acc : access) (id : prim) : bool :=
  let w := access_where acc in
  (prim_truthy (w_id w) && negb (prim_eqb (w_id w) id))
  || (prim_truthy (w_id_not w) && prim_eqb (w_id_not w) id)
  || match w_id_in w with
     | Some ids => negb (includes ids id)
     | None => false
     end
  || match w_id_not_in w with
     | Some ids => includes ids id
     | None => false
     end.

Definition getAccessControlledItem (L : List) (id : prim) (acc : access)
    (ctx : context) (op : operation) (gqlName : option string) : M world obj :=
  let throwAccessDenied {A} : M world A :=
    _throwAccessDenied op ctx gqlName [("itemId", VPrim id)] None in
  item ←
    (if access_is_true acc then adapter_findById L id
     else if excludes_id acc id then throwAccessDenied
     else
       let w := access_where acc in
       items ← adapter_itemsQuery L
         (QueryArgs (Some 1)
            (Where id (w_id_not w) (w_id_in w) (w_id_not_in w) (w_other w)) []);
       mret (head items));
  match item with
  | None => throwAccessDenied
  | Some item => mret item
  end.

(** [[].concat(a, b).filter(id => id)], then [unique]. *)
Definition truthy_ids (a : prim) (b : option (list prim)) : list prim :=
  unique (List.filter prim_truthy (a :: default [PUndefined] b)).

Definition accessControlIdsAllowed (w : where_clause) : list prim :=
  truthy_ids (w_id w) (w_id_in w).

Definition accessControlIdsDisallowed (w : where_clause) : list prim :=
  truthy_ids (w_id_not w) (w_id_not_in w).

(** [idFilters.id_in] *)
Definition idFilters_id_in (w : where_clause) (uniqueIds : list prim)
  : list prim :=
  if prim_truthy (w_id w) || bool_decide (is_Some (w_id_in w))
  then intersection (accessControlIdsAllowed w) uniqueIds
  else uniqueIds.

(** [idFilters.id_not_in], [None] while it is not set. *)
Definition idFilters_id_not_in (w : where_clause) (uniqueIds : list prim)
  : option (list prim) :=
  if prim_truthy (w_id_not w) || bool_decide (is_Some (w_id_not_in w))
  then Some (intersection (accessControlIdsDisallowed w) uniqueIds)
  else None.

(** The early return of [getAccessControlledItems]: none of the allowed
    ids was asked for, or every id asked for is disallowed. *)
Definition nothing_accessible (w : where_clause) (uniqueIds : list prim) : bool :=
  Nat.eqb (length (idFilters_id_in w uniqueIds)) 0
  || match idFilters_id_not_in w uniqueIds with
     | Some ids => Nat.eqb (length ids) (length uniqueIds)
     | None => false
     end.

Definition getAccessControlledItems (L : List) (ids : list prim) (acc : access)
  : M world (list obj) :=
  match ids with
  | [] => mret []
  | _ :: _ =>
      let uniqueIds := unique ids in
      if access_is_true acc
      then adapter_itemsQuery L
             (QueryArgs None (Where PUndefined PUndefined (Some uniqueIds) None []) [])
      else
        let w := access_where acc in
        if nothing_accessible w uniqueIds then mret []
        else adapter_itemsQuery L
               (QueryArgs None
                  (Where PUndefined PUndefined
                     (Some (idFilters_id_in w uniqueIds))
                     (idFilters_id_not_in w uniqueIds)
                     (w_other w)) [])
  end.

(** *** Queries *)




(** *** Hook orchestration *)

Definition _throwValidationFailure {S A} (L : List)
    (errors : list validation_error) (op : operation) (data : value) : M S A :=
  throw (ValidationFailureError
    (ValidationFailureData (map msg errors) (map errorData errors) (key L) op)
    (map internalData errors)
    (match data with
     | VPrim PUndefined => VObj []
     | _ => data
     end)).

(** One invocation of a hook of a phase: logged, then its effect. *)
Definition call_hook (L : List) (hookName : hook_name) (who : participant)
    (hook : context -> hook_args -> hook_result) (ctx : context)
    (args : hook_args) : HookM (list validation_error) :=
  emit (HookCall (key L) hookName who args);;
  let r := hook ctx args in
  match thrown r with
  | Some e => throw e
  | None => mret (added r)
  end.

(** One invocation of a [resolveInput] hook. *)
Definition call_resolveInput {A} (L : List) (who : participant)
    (hook : context -> hook_args -> outcome A) (ctx : context)
    (args : hook_args) : HookM A :=
  emit (ResolveInputCall (key L) who args);;
  match hook ctx args with
  | Ret v => mret v
  | Throw e => throw e
  end.

(** The fields that declare a user hook for the phase. *)
Definition with_hook (hookName : hook_name) (fs : list Field) : list Field :=
  List.filter (fun field => bool_decide (is_Some (hooks field hookName))) fs.

(** The user hook of a field that [with_hook] kept. *)
Definition user_hook (hookName : hook_name) (field : Field)
  : context -> hook_args -> hook_result :=
  default (fun _ _ => HookResult [] None) (hooks field hookName).

Definition _resolveRelationship (L : List) (data : obj)
    (existingItem : option obj) (ctx : context) (getItem : option nat)
    (mutationState : nat) : M world obj :=
  let fs := List.filter isRelationship (_fieldsFromObject L data) in
  resolvedRelationships ← _mapToFields fs (fun field =>
    operations ← resolveNestedOperations field (obj_get data (path field))
                   existingItem ctx getItem mutationState;
    mret (convertResolvedOperationsToFieldValue field operations existingItem));
  mret (obj_spread data resolvedRelationships).

Definition _registerBacklinks (L : List) (existingItem : obj)
    (mutationState : nat) : M world unit :=
  let fs := List.filter isRelationship (fields L) in
  _mapToFields fs (fun field =>
    registerBacklink field (obj_get existingItem (path field)) existingItem
      mutationState);;
  mret tt.

Definition _resolveDefaults {S} (L : List) (data : obj) : M S obj :=
  let fs :=
    List.filter (fun field => negb (strict_eq (getDefaultValue field) VUndefined))
      (fields L) in
  defaults ← _mapToFields fs (fun field => mret (getDefaultValue field));
  mret (obj_spread defaults data).

(** Every hook is handed [{ resolvedData, ...args }], in which the spread
    [args.resolvedData] wins: the data the call started with. *)
Definition _resolveInput (L : List) (resolvedData : obj)
    (existingItem : option obj) (ctx : context) (op : operation)
    (originalInput : value) : HookM obj :=
  let args := HookArgs (Some resolvedData) existingItem originalInput None in
  let fs := _fieldsFromObject L resolvedData in
  resolvedData ← _mapToFields fs (fun field =>
    call_resolveInput L (FieldBuiltin (path field)) (resolveInput field) ctx args);
  overrides ← _mapToFields
    (List.filter (fun field => bool_decide (is_Some (hooks_resolveInput field))) fs)
    (fun field =>
       call_resolveInput L (FieldHook (path field))
         (default (fun _ _ => Ret VUndefined) (hooks_resolveInput field)) ctx args);
  let resolvedData := obj_spread resolvedData overrides in
  match list_resolveInput L with
  | Some hook => call_resolveInput L ListHook hook ctx args
  | None => mret resolvedData
  end.

(** [_validateHook]: the field participants first; the list hook only
    when they collected nothing. *)
Definition _validateHook (L : List) (ctx : context) (args : hook_args)
    (fs : list Field) (op : operation) (hookName : hook_name) : HookM unit :=
  builtin ← _mapToFields fs (fun field =>
    call_hook L hookName (FieldBuiltin (path field)) (method field hookName)
      ctx args);
  user ← _mapToFields (with_hook hookName fs) (fun field =>
    call_hook L hookName (FieldHook (path field)) (user_hook hookName field)
      ctx args);
  let fieldValidationErrors := concat (map snd builtin) ++ concat (map snd user) in
  match fieldValidationErrors with
  | _ :: _ => _throwValidationFailure L fieldValidationErrors op (originalInput args)
  | [] =>
      match list_hooks L hookName with
      | Some hook =>
          listValidationErrors ← call_hook L hookName ListHook hook ctx args;
          match listValidationErrors with
          | _ :: _ =>
              _throwValidationFailure L listValidationErrors op (originalInput args)
          | [] => mret tt
          end
      | None => mret tt
      end
  end.

(** The test of the [isRequired] check of [_validateInput]. *)
Definition required_but_missing (op : operation) (resolvedData : obj)
    (field : Field) : bool :=
  isRequired field && negb (isRelationship field)
  && match op with
     | Create => is_nullish (obj_get resolvedData (path field))
     | Update =>
         has_key resolvedData (path field)
         && is_nullish (obj_get resolvedData (path field))
     | _ => false
     end.

Definition dquote : string := String (ascii_of_nat 34) EmptyString.

Definition required_message (p : string) : string :=
  "Required field " ++ dquote ++ p ++ dquote ++ " is null or undefined.".

Definition required_error (op : operation) (resolvedData : obj)
    (originalInput : value) (f : Field) : validation_error :=
  ValidationError (required_message (path f))
    (VObj [("resolvedData", VObj resolvedData);
           ("operation", VStr (operation_name op));
           ("originalInput", originalInput)])
    (VObj []).

Definition _validateInput (L : List) (resolvedData : obj)
    (existingItem : option obj) (ctx : context) (op : operation)
    (originalInput : value) : HookM unit :=
  let args := HookArgs (Some resolvedData) existingItem originalInput None in
  let fieldValidationErrors :=
    map (required_error op resolvedData originalInput)
      (List.filter (required_but_missing op resolvedData) (fields L)) in
  match fieldValidationErrors with
  | _ :: _ => _throwValidationFailure L fieldValidationErrors op originalInput
  | [] =>
      _validateHook L ctx args (_fieldsFromObject L resolvedData) op validateInput
  end.

Definition _validateDelete (L : List) (existingItem : obj) (ctx : context)
    (op : operation) : HookM unit :=
  let args := HookArgs None (Some existingItem) VUndefined None in
  _validateHook L ctx args (fields L) op validateDelete.

Definition _runHook (L : List) (ctx : context) (args : hook_args)
    (fieldObject : option obj) (hookName : hook_name) : HookM unit :=
  match fieldObject with
  | None => throw (TypeError "Cannot convert undefined or null to object")
  | Some fieldObject =>
      let fs := _fieldsFromObject L fieldObject in
      _mapToFields fs (fun field =>
        call_hook L hookName (FieldBuiltin (path field)) (method field hookName)
          ctx args);;
      _mapToFields (with_hook hookName fs) (fun field =>
        call_hook L hookName (FieldHook (path field)) (user_hook hookName field)
          ctx args);;
      match list_hooks L hookName with
      | Some hook => call_hook L hookName ListHook hook ctx args;; mret tt
      | None => mret tt
      end
  end.

Definition _beforeChange (L : List) (resolvedData : obj)
    (existingItem : option obj) (ctx : context) (originalInput : value) : HookM unit :=
  let args := HookArgs (Some resolvedData) existingItem originalInput None in
  _runHook L ctx args (Some resolvedData) beforeChange.

Definition _beforeDelete (L : List) (existingItem : obj) (ctx : context) : HookM unit :=
  let args := HookArgs None (Some existingItem) VUndefined None in
  _runHook L ctx args (Some existingItem) beforeDelete.

Definition _afterChange (L : List) (updatedItem : option obj)
    (existingItem : option obj) (ctx : context) (originalInput : value) : HookM unit :=
  let args := HookArgs None existingItem originalInput updatedItem in
  _runHook L ctx args updatedItem afterChange.

Definition _afterDelete (L : List) (existingItem : obj) (ctx : context) : HookM unit :=
  let args := HookArgs None (Some existingItem) VUndefined None in
  _runHook L ctx args (Some existingItem) afterDelete.

(** *** Nested mutations *)

(** [Relationship.resolveBacklinks(context, mutationState)] of the fields
    package. *)
Variable resolveBacklinks : context -> nat -> M world unit.

(** [zipObj({ existingItem, id, data })] of the utilities package. *)
Variable zipObj :
  list obj -> list prim -> list obj -> list (option obj * prim * obj).

(** A fresh [{ afterChangeStack: [], queues: {}, transaction: {} }]. *)
Definition new_mutationState : M world nat := fun w =>
  (Ret (length (mutationStates w)),
   set_mutationStates w (mutationStates w ++ [MutationState [] [] []])).

(** [mutationState.afterChangeStack] *)
Definition stack_of (mutationState : nat) (w : world) : list after_hook :=
  match mutationStates w !! mutationState with
  | Some ms => afterChangeStack ms
  | None => []
  end.

Definition set_stack (mutationState : nat) (stack : list after_hook)
    (w : world) : world :=
  set_mutationStates w
    (alter (fun ms => MutationState stack (queues ms) (transaction ms))
       mutationState (mutationStates w)).

(** [afterChangeStack.push(afterHook)] *)
Definition push_afterHook (mutationState : nat) (afterHook : after_hook)
  : M world unit :=
  modify (fun w => set_stack mutationState (stack_of mutationState w ++ [afterHook]) w).

(** [afterChangeStack.pop()] *)
Definition pop_afterHook (mutationState : nat) : M world (option after_hook) :=
  fun w =>
    let stack := stack_of mutationState w in
    (Ret (last stack), set_stack mutationState (removelast stack) w).

(** [while (afterChangeStack.length) await afterChangeStack.pop()()], for
    a stack of [n] hooks: a running hook reaches the event log only, so the
    loop makes as many turns as the stack holds hooks when it starts. *)
Fixpoint drain (mutationState : nat) (n : nat) : M world unit :=
  match n with
  | 0 => mret tt
  | S n' =>
      top ← pop_afterHook mutationState;
      match top with
      | Some afterHook => in_trace (afterHook tt);; drain mutationState n'
      | None => mret tt
      end
  end.

Definition _nestedMutation {A} (mutationState : option nat) (ctx : context)
    (mutation : nat -> M world (A * after_hook)) : M world A :=
  let isRootMutation := bool_decide (mutationState = None) in
  mutationState ←
    match mutationState with
    | None => new_mutationState
    | Some ms => mret ms
    end;
  '(result, afterHook) ← mutation mutationState;
  resolveBacklinks ctx mutationState;;
  push_afterHook mutationState afterHook;;
  (if isRootMutation
   then
     pending ← gets (stack_of mutationState);
     drain mutationState (length pending)
   else mret tt);;
  mret result.

(** *** Deferred item handles *)

Definition createLazyDeferred : M world nat := fun w =>
  (Ret (length (deferreds w)), set_deferreds w (deferreds w ++ [Pending])).

(** Settling a handle; a settled handle stays as it is. *)
Definition settle (handle : nat) (d : deferred) : M world unit :=
  modify (fun w =>
    set_deferreds w
      (alter (fun old => match old with Pending => d | _ => old end)
         handle (deferreds w))).

Definition resolve (handle : nat) (item : obj) : M world unit :=
  settle handle (Resolved item).
Definition reject (handle : nat) (e : error) : M world unit :=
  settle handle (Rejected e).

(** *** Mutations *)

Definition _createSingle (L : List) (data : obj) (existingItem : option obj)
    (ctx : context) (mutationState : option nat) : M world obj :=
  let operation := Create in
  _nestedMutation mutationState ctx (fun mutationState =>
    defaultedItem ← _resolveDefaults L data;
    createdPromise ← createLazyDeferred;
    resolvedData ← _resolveRelationship L defaultedItem existingItem ctx
                     (Some createdPromise) mutationState;
    resolvedData ← in_trace
      (_resolveInput L resolvedData existingItem ctx operation (VObj data));
    in_trace (_validateInput L resolvedData existingItem ctx operation (VObj data));;
    in_trace (_beforeChange L resolvedData existingItem ctx
                (VStr (operation_name operation)));;
    newItem ← try_catch
      (newItem ← adapter_create L resolvedData;
       resolve createdPromise newItem;;
       mret newItem)
      (fun error => reject createdPromise error;; throw error);
    mret (newItem,
          fun _ : unit =>
            _afterChange L (Some newItem) existingItem ctx
              (VStr (operation_name operation)))).

Definition createMutation (L : List) (data : obj) (ctx : context)
    (mutationState : option nat) : M world obj :=
  let operation := Create in
  let gqlName := Some (createMutationName (gqlNames L)) in
  checkListAccess L ctx operation gqlName [];;
  let existingItem := None in
  let itemsToUpdate := [(existingItem, data)] in
  checkFieldAccess L operation itemsToUpdate ctx gqlName [];;
  _createSingle L data existingItem ctx mutationState.

Definition createManyMutation (L : List) (data : list obj) (ctx : context)
    (mutationState : option nat) : M world (list obj) :=
  let operation := Create in
  let gqlName := Some (createManyMutationName (gqlNames L)) in
  checkListAccess L ctx operation gqlName [];;
  let itemsToUpdate := map (fun d => (None, d)) data in
  checkFieldAccess L operation itemsToUpdate ctx gqlName [];;
  promise_all (fun d => _createSingle L d None ctx mutationState) data.

Definition _updateSingle (L : List) (id : prim) (data : obj)
    (existingItem : option obj) (ctx : context) (mutationState : option nat)
  : M world (option obj) :=
  let operation := Update in
  _nestedMutation mutationState ctx (fun mutationState =>
    resolvedData ← _resolveRelationship L data existingItem ctx None mutationState;
    resolvedData ← in_trace
      (_resolveInput L resolvedData existingItem ctx operation (VObj data));
    in_trace (_validateInput L resolvedData existingItem ctx operation (VObj data));;
    in_trace (_beforeChange L resolvedData existingItem ctx
                (VStr (operation_name operation)));;
    newItem ← adapter_update L id resolvedData;
    mret (newItem,
          fun _ : unit =>
            _afterChange L newItem existingItem ctx
              (VStr (operation_name operation)))).

Definition updateMutation (L : List) (id : prim) (data : obj) (ctx : context)
    (mutationState : option nat) : M world (option obj) :=
  let operation := Update in
  let gqlName := Some (updateMutationName (gqlNames L)) in
  let extraData := [("itemId", VPrim id)] in
  access ← checkListAccess L ctx operation gqlName extraData;
  existingItem ← getAccessControlledItem L id access ctx operation gqlName;
  let itemsToUpdate := [(Some existingItem, data)] in
  checkFieldAccess L operation itemsToUpdate ctx gqlName extraData;;
  _updateSingle L id data (Some existingItem) ctx mutationState.

Definition updateManyMutation (L : List) (data : list (prim * obj))
    (ctx : context) (mutationState : option nat) : M world (list (option obj)) :=
  let operation := Update in
  let gqlName := Some (updateManyMutationName (gqlNames L)) in
  let ids := map fst data in
  let extraData := [("itemId", VArr (map VPrim ids))] in
  access ← checkListAccess L ctx operation gqlName extraData;
  existingItems ← getAccessControlledItems L ids access;
  let itemsToUpdate := zipObj existingItems ids (map snd data) in
  checkFieldAccess L operation
    (map (fun item => (fst (fst item), snd item)) itemsToUpdate)
    ctx gqlName extraData;;
  promise_all
    (fun item =>
       let '(existingItem, id, data) := item in
       _updateSingle L id data existingItem ctx mutationState)
    itemsToUpdate.

Definition _deleteSingle (L : List) (existingItem : obj) (ctx : context)
    (mutationState : option nat) : M world (option obj) :=
  let operation := Delete in
  _nestedMutation mutationState ctx (fun mutationState =>
    _registerBacklinks L existingItem mutationState;;
    in_trace (_validateDelete L existingItem ctx operation);;
    in_trace (_beforeDelete L existingItem ctx);;
    result ← adapter_delete L (obj_get existingItem "id");
    mret (result, fun _ : unit => _afterDelete L existingItem ctx)).


Definition deleteManyMutation (L : List) (ids : list prim) (ctx : context)
    (mutationState : option nat) : M world (list (option obj)) :=
  let operation := Delete in
  let gqlName := Some (deleteManyMutationName (gqlNames L)) in
  access ← checkListAccess L ctx operation gqlName
             [("itemIds", VArr (map VPrim ids))];
  existingItems ← getAccessControlledItems L ids access;
  promise_all
    (fun existingItem => _deleteSingle L existingItem ctx mutationState)
    existingItems.

(** *** The steps of a create, named *)

(** The mutation state a call works with, and the world it starts from:
    a root call allocates its own. *)
Definition enter (mutationState : option nat) (w : world) : nat * world :=
  match mutationState with
  | None =>
      (length (mutationStates w),
       set_mutationStates w (mutationStates w ++ [MutationState [] [] []]))
  | Some ms => (ms, w)
  end.

(** The closure of [_createSingle] up to the end of [_resolveInput]: the
    deferred handle it made and the resolved data. *)
Definition create_resolved (L : List) (data : obj) (existingItem : option obj)
    (ctx : context) (mutationState : nat) : M world (nat * obj) :=
  defaultedItem ← _resolveDefaults L data;
  createdPromise ← createLazyDeferred;
  resolvedData ← _resolveRelationship L defaultedItem existingItem ctx
                   (Some createdPromise) mutationState;
  resolvedData ← in_trace
    (_resolveInput L resolvedData existingItem ctx Create (VObj data));
  mret (createdPromise, resolvedData).

(** The closure of [_createSingle] up to the end of [_beforeChange]. *)
Definition create_prepared (L : List) (data : obj) (existingItem : option obj)
    (ctx : context) (mutationState : nat) : M world (nat * obj) :=
  '(createdPromise, resolvedData) ←
    create_resolved L data existingItem ctx mutationState;
  in_trace (_validateInput L resolvedData existingItem ctx Create (VObj data));;
  in_trace (_beforeChange L resolvedData existingItem ctx
              (VStr (operation_name Create)));;
  mret (createdPromise, resolvedData).

(** The [afterHook] a create hands to [_nestedMutation]. *)
Definition create_afterHook (L : List) (newItem : obj)
    (existingItem : option obj) (ctx : context) : after_hook :=
  fun _ => _afterChange L (Some newItem) existingItem ctx
             (VStr (operation_name Create)).

(** Runs after-change callbacks one after the other. *)
Fixpoint run_afterHooks (hs : list after_hook) : HookM unit :=
  match hs with
  | [] => mret tt
  | h :: rest => h tt;; run_afterHooks rest
  end.

(** The errors the field participants of a validation phase add: those of
    the built-in implementations, then those of the user hooks. *)
Definition field_validation_errors (ctx : context) (args : hook_args)
    (fs : list Field) (hookName : hook_name) : list validation_error :=
  concat (map (fun field => added (method field hookName ctx args)) fs)
  ++ concat (map (fun field => added (user_hook hookName field ctx args))
               (with_hook hookName fs)).

(** No field participant of the phase throws. *)
Definition fields_do_not_throw (ctx : context) (args : hook_args)
    (fs : list Field) (hookName : hook_name) : Prop :=
  Forall (fun field => thrown (method field hookName ctx args) = None) fs
  /\ Forall (fun field => thrown (user_hook hookName field ctx args) = None)
       (with_hook hookName fs).

(** The events of the field participants of a phase. *)
Definition field_hook_events (L : List) (args : hook_args) (fs : list Field)
    (hookName : hook_name) : list event :=
  map (fun field => HookCall (key L) hookName (FieldBuiltin (path field)) args) fs
  ++ map (fun field => HookCall (key L) hookName (FieldHook (path field)) args)
       (with_hook hookName fs).

(** The ids a clause allows: its [id] and the members of its [id_in].
    A falsy id counts for none. *)
Definition allows_id (c : where_clause) (id : prim) : Prop :=
  prim_truthy id = true
  /\ (id = w_id c \/ exists l, w_id_in c = Some l /\ In id l).

(** The ids a clause disallows: its [id_not] and the members of its
    [id_not_in]. A falsy id counts for none. *)
Definition disallows_id (c : where_clause) (id : prim) : Prop :=
  prim_truthy id = true
  /\ (id = w_id_not c \/ exists l, w_id_not_in c = Some l /\ In id l).

(** The clause names allowed ids, or disallowed ones: it has a truthy [id]
    or an [id_in] array, a truthy [id_not] or an [id_not_in] array. *)
Definition names_allowed_ids (c : where_clause) : Prop :=
  prim_truthy (w_id c) = true \/ is_Some (w_id_in c).
Definition names_disallowed_ids (c : where_clause) : Prop :=
  prim_truthy (w_id_not c) = true \/ is_Some (w_id_not_in c).

(** The id constraints of a clause leave none of the requested ids
    accessible: the clause names allowed ids and none was requested, or it
    names disallowed ids and every requested id is one. *)
Definition no_id_accessible (c : where_clause) (ids : list prim) : Prop :=
  (names_allowed_ids c /\ forall id, In id ids -> ~ allows_id c id)
  \/ (names_disallowed_ids c /\ forall id, In id ids -> disallows_id c id).

(** The lookup of [getAccessControlledItem] finds nothing: no such item
    under full access, an id the clause excludes, or no match in storage. *)
Definition no_item_visible (L : List) (id : prim) (acc : access) (w : world)
  : Prop :=
  (access_is_true acc = true /\ findById (adapter L) id (store w) = Ret None)
  \/ (access_is_true acc = false /\ excludes_id acc id = true)
  \/ (access_is_true acc = false /\ excludes_id acc id = false
      /\ let c := access_where acc in
         itemsQuery (adapter L)
           (QueryArgs (Some 1)
              (Where id (w_id_not c) (w_id_in c) (w_id_not_in c) (w_other c)) [])
           (store w) = Ret []).

(** The error [getAccessControlledItem] and [checkListAccess] raise. *)
Definition access_denied (op : operation) (ctx : context)
    (target : option string) (extraInternalData : obj) : error :=
  AccessDeniedError (AccessDeniedData (opToType op) target None)
    (obj_spread
       [("authedId", authedId ctx); ("authedListKey", authedListKey ctx)]
       extraInternalData).

(** The error [checkFieldAccess] raises. *)
Definition field_access_denied (op : operation) (ctx : context)
    (target : option string) (extraInternalData : obj)
    (restricted : list string) : error :=
  AccessDeniedError (AccessDeniedData (opToType op) target (Some restricted))
    (obj_spread
       [("authedId", authedId ctx); ("authedListKey", authedListKey ctx)]
       extraInternalData).

(** The error [_throwValidationFailure] raises. *)
Definition validation_failure (L : List) (errors : list validation_error)
    (op : operation) (originalInput : value) : error :=
  ValidationFailureError
    (ValidationFailureData (map msg errors) (map errorData errors) (key L) op)
    (map internalData errors)
    (match originalInput with
     | VPrim PUndefined => VObj []
     | _ => originalInput
     end).

(** Between two worlds nothing happened but, at most, one logged read of
    the storage of [L]. *)
Definition read_at_most_once (L : List) (w w1 : world) : Prop :=
  w1 = w
  \/ exists call,
       w1 = log (Storage (key L) call) w
       /\ is_storage_write (Storage (key L) call) = false.

(** The persist step of a create: the [try]/[catch] around
    [adapter.create] and the value the closure returns. *)
Definition create_persist (L : List) (existingItem : option obj)
    (ctx : context) (createdPromise : nat) (resolvedData : obj)
  : M world (obj * after_hook) :=
  newItem ← try_catch
    (newItem ← adapter_create L resolvedData;
     resolve createdPromise newItem;;
     mret newItem)
    (fun error => reject createdPromise error;; throw error);
  mret (newItem, create_afterHook L newItem existingItem ctx).

(** The closure [_createSingle] hands to [_nestedMutation], by its steps. *)
Definition create_mutation (L : List) (data : obj) (existingItem : option obj)
    (ctx : context) (mutationState : nat) : M world (obj * after_hook) :=
  '(createdPromise, resolvedData) ←
    create_prepared L data existingItem ctx mutationState;
  create_persist L existingItem ctx createdPromise resolvedData.

(** What a list hook of a validation phase leads to, after the field
    participants collected nothing. *)
Definition list_hook_outcome (L : List) (ctx : context) (args : hook_args) (op : operation)
    (hookName : hook_name) (tr : list event) : outcome unit * list event :=
  match list_hooks L hookName with
  | None => (Ret tt, tr)
  | Some hook =>
      let tr' := tr ++ [HookCall (key L) hookName ListHook args] in
      match thrown (hook ctx args) with
      | Some e => (Throw e, tr')
      | None =>
          match added (hook ctx args) with
          | [] => (Ret tt, tr')
          | _ :: _ =>
              (Throw (validation_failure L (added (hook ctx args)) op
                        (originalInput args)), tr')
          end
      end
  end.

(** *** The steps of an update, named *)

(** The closure of [_updateSingle] up to the end of [_beforeChange]. *)
Definition update_prepared (L : List) (data : obj) (existingItem : option obj)
    (ctx : context) (mutationState : nat) : M world obj :=
  resolvedData ← _resolveRelationship L data existingItem ctx None mutationState;
  resolvedData ← in_trace
    (_resolveInput L resolvedData existingItem ctx Update (VObj data));
  in_trace (_validateInput L resolvedData existingItem ctx Update (VObj data));;
  in_trace (_beforeChange L resolvedData existingItem ctx
              (VStr (operation_name Update)));;
  mret resolvedData.

(** The [afterHook] an update hands to [_nestedMutation]. *)
Definition update_afterHook (L : List) (newItem : option obj)
    (existingItem : option obj) (ctx : context) : after_hook :=
  fun _ => _afterChange L newItem existingItem ctx (VStr (operation_name Update)).

(** The closure [_updateSingle] hands to [_nestedMutation], by its steps. *)
Definition update_mutation (L : List) (id : prim) (data : obj)
    (existingItem : option obj) (ctx : context) (mutationState : nat)
  : M world (option obj * after_hook) :=
  resolvedData ← update_prepared L data existingItem ctx mutationState;
  newItem ← adapter_update L id resolvedData;
  mret (newItem, update_afterHook L newItem existingItem ctx).

(** The event of the list hook of a phase, when the list declares one. *)
Definition list_hook_event (L : List) (args : hook_args) (hookName : hook_name)
  : list event :=
  match list_hooks L hookName with
  | Some _ => [HookCall (key L) hookName ListHook args]
  | None => []
  end.

(** No [resolveInput] hook of the fields throws. *)
Definition resolveInput_does_not_throw (ctx : context) (args : hook_args)
    (fs : list Field) : Prop :=
  Forall (fun field => exists v, resolveInput field ctx args = Ret v) fs
  /\ Forall (fun field =>
               forall hook, hooks_resolveInput field = Some hook ->
                            exists v, hook ctx args = Ret v) fs.

(** *** Names *)

(** [preventInvalidUnderscorePrefix]: [str.replace(/^__/, '_')] *)
Definition preventInvalidUnderscorePrefix (str : string) : string :=
  match str with
  | String a (String b rest) =>
      if Ascii.eqb a "_" && Ascii.eqb b "_" then String "_" rest else str
  | _ => str
  end.

(** [gqlNames.listMetaName], from the query name of the list. *)
Definition listMetaName (_listQueryName : string) : string :=
  preventInvalidUnderscorePrefix ("_" ++ _listQueryName ++ "Meta").

End Engine.
End Keystone.

(** ** A small project to run the engine on *)

Module Demo.
Import Keystone.

(** Two lists in memory: users and posts. *)
Definition Store : Type := (list obj * list obj)%type.

Definition id_of (item : obj) : prim :=
  match obj_get item "id" with
  | VPrim p => p
  | _ => PUndefined
  end.

(** An item passes a where-clause. *)
Definition matches (w : where_clause) (item : obj) : bool :=
  (negb (prim_truthy (w_id w)) || prim_eqb (w_id w) (id_of item))
  && (negb (prim_truthy (w_id_not w)) || negb (prim_eqb (w_id_not w) (id_of item)))
  && match w_id_in w with
     | Some ids => includes ids (id_of item)
     | None => true
     end
  && match w_id_not_in w with
     | Some ids => negb (includes ids (id_of item))
     | None => true
     end
  && forallb (fun kv => strict_eq (obj_get item (fst kv)) (snd kv)) (w_other w).

(** A storage adapter over a list of items kept in the store. Created items
    are numbered from 1. *)
Definition memoryAdapter (get : Store -> list obj)
    (set : Store -> list obj -> Store) : @ListAdapter Store :=
  MkListAdapter
    (fun id st => Ret (find (fun item => prim_eqb (id_of item) id) (get st)))
    (fun args st =>
       let found := List.filter (matches (q_where args)) (get st) in
       Ret (match q_first args with
            | Some n => take n found
            | None => found
            end))
    (fun args st =>
       Ret (Z.of_nat (length (List.filter (matches (q_where args)) (get st)))))
    (fun data st =>
       let item := obj_set data "id" (VPrim (PNum (Z.of_nat (S (length (get st)))))) in
       (Ret item, set st (get st ++ [item])))
    (fun id data st =>
       match find (fun item => prim_eqb (id_of item) id) (get st) with
       | Some old =>
           let new := obj_spread old data in
           (Ret (Some new),
            set st (map (fun item => if prim_eqb (id_of item) id then new else item)
                      (get st)))
       | None => (Ret None, st)
       end)
    (fun id st =>
       (Ret (find (fun item => strict_eq (obj_get item "id") id) (get st)),
        set st (List.filter (fun item => negb (strict_eq (obj_get item "id") id))
                  (get st)))).

Definition users : @ListAdapter Store :=
  memoryAdapter fst (fun st l => (l, snd st)).
Definition posts : @ListAdapter Store :=
  memoryAdapter snd (fun st l => (fst st, l)).

(** The same storage with a [create] that fails. *)
Definition disk_full : error := Error "disk full".
Definition broken (a : @ListAdapter Store) : @ListAdapter Store :=
  MkListAdapter (findById a) (itemsQuery a) (itemsQueryMeta a)
    (fun _ st => (Throw disk_full, st)) (update a) (delete a).

Definition names (itemName : string) : gql_names :=
  GqlNames itemName ("all" ++ itemName ++ "s") ("_all" ++ itemName ++ "sMeta")
    ("authenticated" ++ itemName)
    ("create" ++ itemName) ("create" ++ itemName ++ "s")
    ("update" ++ itemName) ("update" ++ itemName ++ "s")
    ("delete" ++ itemName) ("delete" ++ itemName ++ "s").

Definition no_hooks : hook_name -> option (context -> hook_args -> hook_result) :=
  fun _ => None.

(** A field with the default implementation of every phase: [resolveInput]
    returns [resolvedData[path]], the other phases do nothing. *)
Definition scalar (p : string) (required : bool) (defaultValue : value)
    (userHooks : hook_name -> option (context -> hook_args -> hook_result))
  : @Field Store :=
  MkField p required false defaultValue
    (fun _ args => Ret (obj_get (default [] (resolvedData args)) p))
    (fun _ _ _ => HookResult [] None)
    None userHooks
    (fun input _ _ _ _ => mret input)
    (fun operations _ => operations)
    (fun _ _ _ => mret tt).

Definition resolveBacklinks : context -> nat -> M (@world Store) unit :=
  fun _ _ => mret tt.

(** Pairs the items found with the ids and data asked for, position by
    position. *)
Definition zipObj (existingItems : list obj) (ids : list prim) (data : list obj)
  : list (option obj * prim * obj) :=
  zip (zip (map Some existingItems) ids) data.


(** The list hook of the User list of the test project. *)
Definition no_homers : context -> hook_args -> hook_result := fun _ args =>
  if strict_eq (obj_get (default [] (resolvedData args)) "name") (VStr "Homer")
  then HookResult
         [ValidationError "Sorry, no Homers allowed"
            (VObj [("a", VPrim (PNum 1))]) (VObj [("b", VPrim (PNum 2))])]
         None
  else HookResult [] None.

(** A field hook that refuses short names. *)
Definition long_enough : context -> hook_args -> hook_result := fun _ args =>
  match obj_get (default [] (resolvedData args)) "name" with
  | VPrim (PStr s) =>
      if Nat.ltb (String.length s) 6
      then HookResult [ValidationError "Name is too short" (VObj []) (VObj [])] None
      else HookResult [] None
  | _ => HookResult [] None
  end.

Definition quiet : context -> hook_args -> hook_result :=
  fun _ _ => HookResult [] None.

Definition only (h : hook_name) (hook : context -> hook_args -> hook_result)
  : hook_name -> option (context -> hook_args -> hook_result) :=
  fun h' =>
    match h, h' with
    | validateInput, validateInput | validateDelete, validateDelete
    | beforeChange, beforeChange | beforeDelete, beforeDelete
    | afterChange, afterChange | afterDelete, afterDelete => Some hook
    | _, _ => None
    end.

(** Users: two required fields, a checked name, and the list hook. *)
Definition User : @List Store :=
  MkList "User"
    [scalar "name" true VUndefined (only validateInput long_enough);
     scalar "email" true VUndefined no_hooks;
     scalar "isAdmin" false VUndefined no_hooks]
    None (only validateInput no_homers) users (names "User").

(** Users with an [afterChange] list hook and no validation. *)
Definition Author : @List Store :=
  MkList "User" [scalar "name" true VUndefined no_hooks]
    None (only afterChange quiet) users (names "User").

(** Modelled from the spec: the nested create of the Relationship field of
    the fields package, which "resolves nested operations against the related
    list, producing a value usable as a foreign-key reference", as a nested
    mutation sharing the mutation state. *)
Definition relationship (p : string) (ref : @List Store) : @Field Store :=
  MkField p false true VUndefined
    (fun _ args => Ret (obj_get (default [] (resolvedData args)) p))
    (fun _ _ _ => HookResult [] None)
    None no_hooks
    (fun input _ ctx _ mutationState =>
       match input with
       | VObj [("create", VObj nested)] =>
           item ← createMutation resolveBacklinks ref nested ctx (Some mutationState);
           mret (obj_get item "id")
       | _ => mret input
       end)
    (fun operations _ => operations)
    (fun _ _ _ => mret tt).

(** Posts: a required status with a default, and an author. *)
Definition Post : @List Store :=
  MkList "Post"
    [scalar "title" false VUndefined no_hooks;
     scalar "status" true (VStr "draft") no_hooks;
     relationship "author" Author]
    None (only afterChange quiet) posts (names "Post").

(** Users on a storage whose [create] fails. *)
Definition BrokenUser : @List Store :=
  MkList "User" [scalar "name" true VUndefined no_hooks]
    None (only afterChange quiet) (broken users) (names "User").

(** Full access for everybody. *)
Definition anyone : context :=
  MkContext (fun _ _ => AccessBool true) (fun _ _ _ _ => true) None VUndefined.


(** Full access to the lists, none to the field [isAdmin]. *)
Definition editor : context :=
  MkContext (fun _ _ => AccessBool true)
    (fun _ p _ _ => negb (String.eqb p "isAdmin")) None VUndefined.

(** Access to every item but the one with id 2. *)
Definition all_but_two : context :=
  MkContext
    (fun _ _ => AccessWhere (Where PUndefined PUndefined None (Some [PNum 2]) []))
    (fun _ _ _ _ => true) None VUndefined.

(** Access to the items named Marge. *)
Definition marges_only : context :=
  MkContext
    (fun _ _ => AccessWhere
       (Where PUndefined PUndefined None None [("name", VStr "Marge")]))
    (fun _ _ _ _ => true) None VUndefined.

Definition empty_world : @world Store := World ([], []) [] [] [].

Definition lisa : obj := [("name", VStr "Lisa"); ("id", VPrim (PNum 1))].
Definition bart : obj := [("name", VStr "Bart"); ("id", VPrim (PNum 2))].
Definition maggie : obj := [("name", VStr "Maggie"); ("id", VPrim (PNum 3))].

(** A world in which three users are stored. *)
Definition family : @world Store := World ([lisa; bart; maggie], []) [] [] [].

(** Which list's [afterChange] list hook ran, in order. *)
Definition afterChange_order (tr : list event) : list string :=
  omap (fun e =>
    match e with
    | HookCall listKey afterChange ListHook _ => Some listKey
    | _ => None
    end) tr.

(** The public messages of a validation failure. *)
Definition messages_of {A} (o : outcome A) : list string :=
  match o with
  | Throw (ValidationFailureError d _ _) => vf_messages d
  | _ => []
  end.

(** Inputs. *)
Definition untitled : obj := [("title", VStr "Hi")].
Definition homer : obj := [("name", VStr "Homer"); ("email", VStr "homer@example.com")].

Definition lisas_post : obj :=
  [("title", VStr "Hi");
   ("author", VObj [("create", VObj [("name", VStr "Lisa")])])].

Definition lisa_input : obj := [("name", VStr "Lisa")].

Definition marjorie : obj := [("name", VStr "Marjorie")].

(** A list hook of [resolveInput] that stamps a slug on the data. *)
Definition with_slug : context -> hook_args -> outcome obj := fun _ args =>
  Ret (obj_set (default [] (resolvedData args)) "slug" (VStr "user")).

(** Users with that list hook. *)
Definition Slugged : @List Store :=
  MkList "User" [scalar "name" true VUndefined no_hooks]
    (Some with_slug) no_hooks users (names "User").

(** A hook that throws. *)
Definition mail_is_down : error := Error "mail is down".
Definition angry : context -> hook_args -> hook_result :=
  fun _ _ => HookResult [] (Some mail_is_down).

(** Users whose [afterChange] list hook throws, and posts written by them. *)
Definition Grumpy : @List Store :=
  MkList "User" [scalar "name" true VUndefined no_hooks]
    None (only afterChange angry) users (names "User").

Definition Review : @List Store :=
  MkList "Post"
    [scalar "title" false VUndefined no_hooks; relationship "author" Grumpy]
    None (only afterChange quiet) posts (names "Post").

(** A field hook that refuses to delete an administrator. *)
Definition admins_stay : context -> hook_args -> hook_result := fun _ args =>
  if strict_eq (obj_get (default [] (existingItem args)) "isAdmin")
       (VPrim (PBool true))
  then HookResult
         [ValidationError "Administrators stay" (VObj []) (VObj [])] None
  else HookResult [] None.

Definition Staff : @List Store :=
  MkList "User"
    [scalar "name" true VUndefined no_hooks;
     scalar "isAdmin" false VUndefined (only validateDelete admins_stay)]
    None no_hooks users (names "User").

Definition marge : obj :=
  [("name", VStr "Marge"); ("isAdmin", VPrim (PBool true)); ("id", VPrim (PNum 4))].

(** An input with a key that is no field of a user. *)
Definition marjorie_and_more : obj :=
  [("name", VStr "Marjorie"); ("shoeSize", VPrim (PNum 38))].

(** Two users whose ids are falsy, and access to every user but them. *)
Definition zero : obj := [("name", VStr "Zero"); ("id", VPrim (PNum 0))].
Definition blank : obj := [("name", VStr "Blank"); ("id", VPrim (PStr EmptyString))].

Definition zero_and_blank : @world Store := World ([zero; blank], []) [] [] [].

Definition all_but_the_falsy : where_clause :=
  Where PUndefined PUndefined None (Some [PNum 0; PStr EmptyString]) [].

(** The JSON adapter's collaborators. *)
Definition cuid (n : nat) : string := String (ascii_of_nat (97 + n)) "uid".

Definition spliceImmutably (items : list obj) (start removeNr : nat)
    (add : list obj) : list obj :=
  take start items ++ add ++ drop (start + removeNr) items.

(** A database file that holds one user, on a connection that has not
    read it yet. *)
Definition database : JSONAdapter.state :=
  JSONAdapter.State {[ "User" := [[("id", VStr "auid"); ("name", VStr "Lisa")]] ]}
    (JSONAdapter.ReadOnly JSONAdapter.AtStart) 1.

(** The user the database file holds. *)
Definition stored_lisa : obj := [("id", VStr "auid"); ("name", VStr "Lisa")].

End Demo.

(** * Properties *)

(** ** Objects *)

Lemma obj_get_set_eq (o : obj) (k : string) (v : value) :
  obj_get (obj_set o k v) k = v.
Proof.
  induction o as [|[k' v'] o IH]; simpl.
  - now rewrite String.eqb_refl.
  - destruct (String.eqb k' k) eqn:E; simpl; rewrite E; auto.
Qed.

Lemma obj_get_set_ne (o : obj) (k k' : string) (v : value) :
  k' <> k -> obj_get (obj_set o k v) k' = obj_get o k'.
Proof.
  intros Hne. induction o as [|[k0 v0] o IH]; simpl.
  - destruct (String.eqb k k') eqn:E; [|reflexivity].
    apply String.eqb_eq in E. congruence.
  - destruct (String.eqb k0 k) eqn:E; simpl.
    + apply String.eqb_eq in E. subst k0.
      destruct (String.eqb k k') eqn:E'; [|reflexivity].
      apply String.eqb_eq in E'. congruence.
    + now rewrite IH.
Qed.

Lemma has_key_set_ne (o : obj) (k k' : string) (v : value) :
  k' <> k -> has_key (obj_set o k v) k' = has_key o k'.
Proof.
  intros Hne. induction o as [|[k0 v0] o IH]; simpl.
  - destruct (String.eqb k k') eqn:E; [|reflexivity].
    apply String.eqb_eq in E. congruence.
  - destruct (String.eqb k0 k) eqn:E; simpl.
    + reflexivity.
    + now rewrite IH.
Qed.

Lemma has_key_In (o : obj) (k : string) : has_key o k = true <-> In k (obj_keys o).
Proof.
  induction o as [|[k' v'] o IH]; simpl.
  - split; [discriminate | tauto].
  - destruct (String.eqb k' k) eqn:E.
    + apply String.eqb_eq in E. tauto.
    + apply String.eqb_neq in E. rewrite IH. tauto.
Qed.

Lemma obj_get_absent (o : obj) (k : string) :
  has_key o k = false -> obj_get o k = VUndefined.
Proof.
  induction o as [|[k' v'] o IH]; simpl; [reflexivity|].
  destruct (String.eqb k' k); [discriminate | exact IH].
Qed.

Lemma has_key_set (o : obj) (k k' : string) (v : value) :
  has_key (obj_set o k v) k' = String.eqb k k' || has_key o k'.
Proof.
  destruct (String.eqb k k') eqn:E; simpl.
  - apply String.eqb_eq in E. subst k'.
    induction o as [|[k0 v0] o IH]; simpl.
    + now rewrite String.eqb_refl.
    + destruct (String.eqb k0 k) eqn:E0; simpl; rewrite E0; auto.
  - apply has_key_set_ne. apply String.eqb_neq in E. congruence.
Qed.

Lemma has_key_spread (a b : obj) (k : string) :
  has_key (obj_spread a b) k = has_key a k || has_key b k.
Proof.
  unfold obj_spread. revert a. induction b as [|[k0 v0] b IH]; intros a; simpl.
  - now rewrite orb_false_r.
  - rewrite IH, has_key_set. destruct (String.eqb k0 k); simpl.
    + now rewrite orb_true_r.
    + reflexivity.
Qed.

(** A key the second object lacks keeps the value of the first. *)
Lemma obj_get_spread_absent (a b : obj) (k : string) :
  has_key b k = false -> obj_get (obj_spread a b) k = obj_get a k.
Proof.
  unfold obj_spread. revert a. induction b as [|[k0 v0] b IH]; intros a; simpl.
  - reflexivity.
  - destruct (String.eqb k0 k) eqn:E; [discriminate|]. intros Hb.
    rewrite IH by exact Hb. apply obj_get_set_ne.
    apply String.eqb_neq in E. congruence.
Qed.

(** A key of the second object takes its value there. *)
Lemma obj_get_spread_present (a b : obj) (k : string) :
  List.NoDup (obj_keys b) -> has_key b k = true ->
  obj_get (obj_spread a b) k = obj_get b k.
Proof.
  unfold obj_spread. revert a. induction b as [|[k0 v0] b IH]; intros a; simpl.
  - discriminate.
  - intros Hnodup. apply List.NoDup_cons_iff in Hnodup as [Hk0 Hnodup].
    destruct (String.eqb k0 k) eqn:E.
    + apply String.eqb_eq in E. subst k0. intros _.
      assert (Hb : has_key b k = false).
      { destruct (has_key b k) eqn:Hb; [|reflexivity].
        apply has_key_In in Hb. contradiction. }
      fold (obj_spread (obj_set a k v0) b).
      rewrite (obj_get_spread_absent _ _ _ Hb). apply obj_get_set_eq.
    + intros Hb. now apply IH.
Qed.

(** ** The JSON list adapter *)

Module JSONAdapterFacts.
Import JSONAdapter.

Section Facts.

Variable cuid : nat -> string.
Variable spliceImmutably : list obj -> nat -> nat -> list obj -> list obj.


Lemma findIndex_some {A} (p : A -> bool) (items : list A) (i : nat) :
  findIndex p items = Some i ->
  exists x, items !! i = Some x /\ p x = true.
Proof.
  revert i. induction items as [|x items IH]; simpl; intros i; [discriminate|].
  destruct (p x) eqn:Hp.
  - intros [= <-]. eauto.
  - destruct (findIndex p items) as [j|]; [|discriminate].
    intros [= <-]. destruct (IH j eq_refl) as (y & Hy & Hpy). eauto.
Qed.

Lemma findIndex_split {A} (p : A -> bool) (items : list A) (i : nat) :
  findIndex p items = Some i ->
  exists before x after,
    items = before ++ x :: after /\ length before = i /\ p x = true
    /\ Forall (fun y => p y = false) before.
Proof.
  revert i. induction items as [|x items IH]; simpl; intros i; [discriminate|].
  destruct (p x) eqn:Hp.
  - intros [= <-]. exists [], x, items. auto.
  - destruct (findIndex p items) as [j|]; [|discriminate].
    intros [= <-]. destruct (IH j eq_refl) as (before & y & after & -> & <- & Hy & Hb).
    exists (x :: before), y, after. repeat split; auto.
Qed.

Lemma findIndex_none_inv {A} (p : A -> bool) (items : list A) :
  findIndex p items = None -> Forall (fun x => p x = false) items.
Proof.
  induction items as [|x items IH]; simpl; [constructor|].
  destruct (p x) eqn:Hp; [discriminate|].
  destruct (findIndex p items); [discriminate|]. auto.
Qed.

Lemma findIndex_exists {A} (p : A -> bool) (items : list A) :
  Exists (fun x => p x = true) items -> exists i, findIndex p items = Some i.
Proof.
  induction 1 as [x items Hx|x items _ [i IH]]; simpl.
  - rewrite Hx. eauto.
  - destruct (p x); [eauto|]. rewrite IH. simpl. eauto.
Qed.

(** *** Reading and writing through the descriptor *)

(** Runs an operation of the adapter by the cases of the descriptor and of
    the stored list. *)
Ltac by_descriptor st key :=
  unfold _findAll, _findById, _update, _delete, _create, _read, _write,
    readList, writeList, read, write, next_cuid, mbind, M_bind, mret, M_ret, throw;
  destruct (_fd st) as [|[|]] eqn:Hfd; simpl; rewrite ?Hfd, ?lookup_empty; simpl;
  try (destruct (lists st !! key) as [stored|] eqn:Hstored; simpl;
       try (destruct (findIndex _ stored) eqn:Hindex; simpl);
       rewrite ?Hfd; simpl).

(** The first read of a connection sees the file. *)
Lemma readList_first (key : string) (st : state) :
  _fd st = ReadOnly AtStart ->
  readList key st
  = (Ret (lists st !! key), State (lists st) (ReadOnly AtEnd) (cuids st)).
Proof.
  intros Hfd. unfold readList, read, mbind, M_bind, mret, M_ret. now rewrite Hfd.
Qed.

(** Any later read, and a read without descriptor, sees no list. *)
Lemma readList_spent (key : string) (st : state) :
  _fd st <> ReadOnly AtStart -> readList key st = (Ret None, st).
Proof.
  intros Hfd. unfold readList, read, mbind, M_bind, mret, M_ret.
  destruct (_fd st) as [|[|]]; try rewrite lookup_empty; try reflexivity.
  congruence.
Qed.

(** After a read, the write is refused for its descriptor. *)
Lemma writeList_spent (key : string) (items : list obj) (st : state) :
  _fd st = ReadOnly AtEnd -> writeList key items st = (Throw EBADF, st).
Proof.
  intros Hfd. unfold writeList, read, write, mbind, M_bind. now rewrite Hfd, Hfd.
Qed.


(** C10. [_create] never returns: on a connection that has not read its
    file yet it reads the stored list, draws an identifier, and the write of
    the longer list is refused for the descriptor, which [_connect] opened
    for reading; in every other state it finds no list to append to. The
    stored lists are the same after the call. *)
Theorem _create_never_returns (key : string) (input : obj) (st : state) :
  (exists e, fst (_create cuid key input st) = Throw e)
  /\ lists (snd (_create cuid key input st)) = lists st
  /\ forall items,
       _fd st = ReadOnly AtStart ->
       lists st !! key = Some items ->
       _create cuid key input st
       = (Throw EBADF, State (lists st) (ReadOnly AtEnd) (S (cuids st))).
Proof.
  split; [|split].
  - by_descriptor st key; eauto.
  - by_descriptor st key; reflexivity.
  - intros items Hfd Hread. unfold _create, _read.
    unfold mbind at 1, M_bind at 1. rewrite (readList_first key st Hfd), Hread.
    unfold next_cuid. unfold mbind at 1, M_bind at 1. simpl.
    unfold _write. unfold mbind at 1, M_bind at 1.
    now rewrite writeList_spent.
Qed.

(** *** Deleting, finding, and what a connection serves *)

(** X1. [_delete] never returns, not even for an id that no item has: it
    writes the filtered list back in every case, and on a connection that
    has not read its file yet that write is refused for the descriptor; in
    every other state there is no list to filter. The stored lists are the
    same after the call. *)
Theorem _delete_never_returns (key : string) (id : value) (st : state) :
  (exists e, fst (_delete key id st) = Throw e)
  /\ lists (snd (_delete key id st)) = lists st
  /\ forall items,
       _fd st = ReadOnly AtStart ->
       lists st !! key = Some items ->
       _delete key id st
       = (Throw EBADF, State (lists st) (ReadOnly AtEnd) (cuids st)).
Proof.
  split; [|split].
  - by_descriptor st key; eauto.
  - by_descriptor st key; reflexivity.
  - intros items Hfd Hread. unfold _delete, _read.
    unfold mbind at 1, M_bind at 1. rewrite (readList_first key st Hfd), Hread.
    unfold _write. unfold mbind at 1, M_bind at 1.
    now rewrite writeList_spent.
Qed.

(** X2. [_update] never returns an item. For an id that a stored item has,
    on a connection that has not read its file yet, the write of the
    spliced list is refused for the descriptor and the item stays as it
    was. *)
Theorem _update_never_takes_effect (key : string) (id : value) (data : obj)
    (st : state) :
  (forall item, fst (_update spliceImmutably key id data st) <> Ret (Some item))
  /\ forall items,
       _fd st = ReadOnly AtStart ->
       lists st !! key = Some items ->
       Exists (fun item => strict_eq (obj_get item "id") id = true) items ->
       _update spliceImmutably key id data st
       = (Throw EBADF, State (lists st) (ReadOnly AtEnd) (cuids st)).
Proof.
  split.
  - intros item. by_descriptor st key; discriminate.
  - intros items Hfd Hread Hsome. unfold _update, _read.
    unfold mbind at 1, M_bind at 1. rewrite (readList_first key st Hfd), Hread.
    destruct (findIndex_exists
                (fun item => strict_eq (obj_get item "id") id) items Hsome)
      as [i Hi].
    rewrite Hi. unfold _write. unfold mbind at 1, M_bind at 1.
    now rewrite writeList_spent.
Qed.

(** What [_findById] does on the first read of a connection. *)
Lemma _findById_run (key : string) (id : value) (st : state) (items : list obj) :
  _fd st = ReadOnly AtStart ->
  lists st !! key = Some items ->
  _findById key id st
  = (match findIndex (fun item => strict_eq (obj_get item "id") id) items with
     | None => Ret None
     | Some i => Ret (items !! i)
     end, State (lists st) (ReadOnly AtEnd) (cuids st)).
Proof.
  intros Hfd Hread. unfold _findById, _read.
  unfold mbind at 1, M_bind at 1. rewrite (readList_first key st Hfd), Hread.
  now destruct (findIndex _ items).
Qed.

(** X3. On a connection that has not read its file yet, [_findById]
    returns the first item of the stored list whose id is the requested one,
    [null] exactly when there is none; the file is as it was and the
    descriptor is left at its end. *)
Theorem _findById_first_match (key : string) (id : value) (st : state)
    (items : list obj) :
  _fd st = ReadOnly AtStart ->
  lists st !! key = Some items ->
  snd (_findById key id st) = State (lists st) (ReadOnly AtEnd) (cuids st)
  /\ match fst (_findById key id st) with
     | Ret (Some item) =>
         exists before after,
           items = before ++ item :: after
           /\ strict_eq (obj_get item "id") id = true
           /\ Forall (fun other => strict_eq (obj_get other "id") id = false) before
     | Ret None =>
         Forall (fun item => strict_eq (obj_get item "id") id = false) items
     | Throw _ => False
     end.
Proof.
  intros Hfd Hread. rewrite (_findById_run key id st items Hfd Hread).
  split; [reflexivity|]. simpl.
  destruct (findIndex _ items) as [i|] eqn:Hfind.
  - apply findIndex_split in Hfind
      as (before & item & after & -> & <- & Hitem & Hbefore).
    rewrite list_lookup_middle by reflexivity. eauto.
  - now apply findIndex_none_inv.
Qed.

(** X4. A connection serves one read. Every operation of the list adapter
    leaves the descriptor away from the start of the file, and from there
    no list is seen, whatever the file holds: [_findAll] yields
    [undefined], the other operations throw a [TypeError] on it, and
    nothing but the count of identifiers changes. *)
Theorem connection_serves_one_read (key : string) (id : value) (data : obj)
    (st : state) :
  (_fd (snd (_findAll key st)) <> ReadOnly AtStart
   /\ _fd (snd (_findById key id st)) <> ReadOnly AtStart
   /\ _fd (snd (_update spliceImmutably key id data st)) <> ReadOnly AtStart
   /\ _fd (snd (_delete key id st)) <> ReadOnly AtStart
   /\ _fd (snd (_create cuid key data st)) <> ReadOnly AtStart)
  /\ (_fd st <> ReadOnly AtStart ->
      _findAll key st = (Ret None, st)
      /\ _findById key id st = (Throw (undefined_has_no "findIndex"), st)
      /\ _update spliceImmutably key id data st
         = (Throw (undefined_has_no "findIndex"), st)
      /\ _delete key id st = (Throw (undefined_has_no "filter"), st)
      /\ _create cuid key data st
         = (Throw (undefined_has_no "concat"),
            State (lists st) (_fd st) (S (cuids st)))).
Proof.
  split.
  - by_descriptor st key; repeat split; discriminate.
  - intros Hfd.
    unfold _findAll, _findById, _update, _delete, _create, _read.
    unfold mbind, M_bind. rewrite (readList_spent key st Hfd).
    repeat split.
Qed.


End Facts.

(** *** The field adapter *)

Lemma js_find_truthy (p : value -> bool) (candidates : list value) :
  Forall (fun s => truthy s = true) candidates ->
  truthy (js_find p candidates) = true <-> exists s, In s candidates /\ p s = true.
Proof.
  unfold js_find. induction 1 as [|s candidates Hs _ IH]; simpl.
  - split; [discriminate|]. now intros (s & [] & _).
  - destruct (p s) eqn:Hp; simpl.
    + split; [eauto|]. intros _. exact Hs.
    + rewrite IH. split.
      * intros (s' & Hin & Hs'). eauto.
      * intros (s' & [<-|Hin] & Hs'); [congruence | eauto].
Qed.

(** X8. The conditions [path_in] and [path_not_in] are each other's
    negation. When every candidate is truthy, [path_in] holds exactly when
    some candidate, once mapped by [f], is strictly equal to the value of the
    item. A falsy candidate that is the first to match is not seen: then
    [path_in] fails and [path_not_in] holds. *)
Theorem inConditions_membership (f : value -> value) (dbPath : string)
    (candidates : list value) (item : obj) :
  not_in_condition f dbPath candidates item
  = negb (in_condition f dbPath candidates item)
  /\ (Forall (fun s => truthy s = true) candidates ->
      in_condition f dbPath candidates item = true
      <-> exists s, In s candidates
                    /\ strict_eq (f s) (obj_get item dbPath) = true)
  /\ (forall s, truthy s = false ->
        strict_eq (f s) (obj_get item dbPath) = true ->
        in_condition f dbPath (s :: candidates) item = false
        /\ not_in_condition f dbPath (s :: candidates) item = true).
Proof.
  split; [reflexivity|]. split.
  - intros Htruthy. unfold in_condition. now apply js_find_truthy.
  - intros s Hfalsy Hmatch. unfold in_condition, not_in_condition, js_find. simpl.
    rewrite Hmatch. simpl. now rewrite Hfalsy.
Qed.


(** The database of the demo, just connected: creating a user throws, and
    the file holds Lisa alone as before. *)
Lemma _create_never_returns_witness :
  JSONAdapter._create Demo.cuid "User"
    [("id", VStr "mine"); ("name", VStr "Bart")] Demo.database
  = (Throw JSONAdapter.EBADF,
     JSONAdapter.State {[ "User" := [Demo.stored_lisa] ]}
       (JSONAdapter.ReadOnly JSONAdapter.AtEnd) 2).
Proof.
  apply (proj2 (proj2 (_create_never_returns Demo.cuid "User"
                         [("id", VStr "mine"); ("name", VStr "Bart")]
                         Demo.database)) [Demo.stored_lisa]).
  - reflexivity.
  - reflexivity.
Defined.

(** The database of the demo: deleting an id nobody has throws all the
    same. *)
Lemma _delete_never_returns_witness :
  JSONAdapter._delete "User" (VStr "zuid") Demo.database
  = (Throw JSONAdapter.EBADF,
     JSONAdapter.State {[ "User" := [Demo.stored_lisa] ]}
       (JSONAdapter.ReadOnly JSONAdapter.AtEnd) 1).
Proof.
  apply (proj2 (proj2 (_delete_never_returns "User" (VStr "zuid") Demo.database))
           [Demo.stored_lisa]).
  - reflexivity.
  - reflexivity.
Defined.

(** The database of the demo: renaming Lisa throws. *)
Lemma _update_never_takes_effect_witness :
  JSONAdapter._update Demo.spliceImmutably "User" (VStr "auid")
    [("id", VStr "auid"); ("name", VStr "Lisa Marie")] Demo.database
  = (Throw JSONAdapter.EBADF,
     JSONAdapter.State {[ "User" := [Demo.stored_lisa] ]}
       (JSONAdapter.ReadOnly JSONAdapter.AtEnd) 1).
Proof.
  apply (proj2 (_update_never_takes_effect Demo.spliceImmutably "User" (VStr "auid")
                  [("id", VStr "auid"); ("name", VStr "Lisa Marie")] Demo.database)
           [Demo.stored_lisa]).
  - reflexivity.
  - reflexivity.
  - left. reflexivity.
Defined.

(** The database of the demo: the first lookup leaves the descriptor at the
    end of the file. *)
Lemma _findById_first_match_witness :
  snd (JSONAdapter._findById "User" (VStr "auid") Demo.database)
  = JSONAdapter.State {[ "User" := [Demo.stored_lisa] ]}
      (JSONAdapter.ReadOnly JSONAdapter.AtEnd) 1.
Proof.
  exact (proj1 (_findById_first_match "User" (VStr "auid") Demo.database
                  [Demo.stored_lisa] eq_refl eq_refl)).
Defined.

(** The database of the demo: Lisa is found once; the same lookup on the same
    connection then throws. *)
Lemma connection_serves_one_read_witness :
  let first := JSONAdapter._findById "User" (VStr "auid") Demo.database in
  fst first = Ret (Some Demo.stored_lisa)
  /\ JSONAdapter._findById "User" (VStr "auid") (snd first)
     = (Throw (JSONAdapter.undefined_has_no "findIndex"), snd first).
Proof.
  intros first. split; [reflexivity|].
  apply (proj2 (connection_serves_one_read Demo.cuid Demo.spliceImmutably "User"
                  (VStr "auid") [] (snd first))).
  discriminate.
Defined.


Lemma inConditions_membership_witness :
  JSONAdapter.in_condition (fun v => v) "name" [VStr "Bart"; VStr "Lisa"]
    Demo.stored_lisa = true.
Proof.
  apply (proj1 (proj2 (inConditions_membership (fun v => v) "name"
                         [VStr "Bart"; VStr "Lisa"] Demo.stored_lisa))).
  - repeat constructor.
  - exists (VStr "Lisa"). split; [right; left; reflexivity | reflexivity].
Defined.

(** *** Where the code departs from the specification *)


End JSONAdapterFacts.

(** ** The list engine *)

Module KeystoneFacts.
Import Keystone.

(** Unfolds the monad of a goal down to the matches on its steps. *)
Ltac run :=
  unfold mbind, M_bind, mret, M_ret, throw, gets, modify, fmap in *; simpl in *.

Section Facts.

Context {Store : Type}.
Variable mergeWhereClause : query_args -> access -> query_args.
Variable resolveBacklinks : context -> nat -> M (@world Store) unit.
Variable zipObj :
  list obj -> list prim -> list obj -> list (option obj * prim * obj).

Implicit Types (L : @List Store) (w : @world Store) (ctx : context).

(** *** List-level access *)


Lemma checkListAccess_allowed {S} L ctx op gqlName extra (s : S) :
  access_truthy (getListAccessControlForUser ctx (key L) op) = true ->
  checkListAccess L ctx op gqlName extra s
  = (Ret (getListAccessControlForUser ctx (key L) op), s).
Proof. intros Hok. unfold checkListAccess. now rewrite Hok. Qed.


(** *** Looking one item up *)

(** C3. Whenever the lookup of one item by id finds nothing, be it that no
    item has the id or that the caller's filter excludes the one that has
    it, [getAccessControlledItem] throws the one [AccessDeniedError] whose
    payload is the operation type and the target: the error does not tell
    the cases apart, and there is no "not found" error. *)
Theorem getAccessControlledItem_denied L id acc ctx op gqlName w :
  no_item_visible L id acc w ->
  fst (getAccessControlledItem L id acc ctx op gqlName w)
  = Throw (access_denied op ctx gqlName [("itemId", VPrim id)]).
Proof.
  unfold no_item_visible, getAccessControlledItem.
  intros [[Htrue Hfind] | [[Hfalse Hexcl] | (Hfalse & Hexcl & Hquery)]].
  - rewrite Htrue. unfold adapter_findById, storage_read. run.
    now rewrite Hfind.
  - rewrite Hfalse, Hexcl. reflexivity.
  - rewrite Hfalse, Hexcl. unfold adapter_itemsQuery, storage_read. run.
    now rewrite Hquery.
Qed.

(** The only other error of the lookup is one the storage threw. *)
Lemma getAccessControlledItem_throws L id acc ctx op gqlName w e :
  fst (getAccessControlledItem L id acc ctx op gqlName w) = Throw e ->
  e = access_denied op ctx gqlName [("itemId", VPrim id)]
  \/ findById (adapter L) id (store w) = Throw e
  \/ exists q, itemsQuery (adapter L) q (store w) = Throw e.
Proof.
  unfold getAccessControlledItem.
  destruct (access_is_true acc).
  - unfold adapter_findById, storage_read. run.
    destruct (findById (adapter L) id (store w)) as [[item|]|e'] eqn:E; simpl.
    + discriminate.
    + intros [= <-]. now left.
    + intros [= <-]. right. now left.
  - destruct (excludes_id acc id).
    + intros [= <-]. now left.
    + unfold adapter_itemsQuery, storage_read. run.
      match goal with
      | |- context [itemsQuery (adapter L) ?q (store w)] =>
          destruct (itemsQuery (adapter L) q (store w)) as [[|item items]|e'] eqn:E
      end; simpl.
      * intros [= <-]. now left.
      * discriminate.
      * intros [= <-]. right. right. eauto.
Qed.

(** The lookup reads the storage at most once and changes nothing else. *)
Lemma getAccessControlledItem_reads L id acc ctx op gqlName w :
  snd (getAccessControlledItem L id acc ctx op gqlName w) = w
  \/ exists call,
       snd (getAccessControlledItem L id acc ctx op gqlName w)
       = log (Storage (key L) call) w
       /\ is_storage_write (Storage (key L) call) = false.
Proof.
  unfold getAccessControlledItem.
  destruct (access_is_true acc).
  - right. exists (FindById id). unfold adapter_findById, storage_read. run.
    destruct (findById (adapter L) id (store w)) as [[item|]|e']; auto.
  - destruct (excludes_id acc id); [now left|].
    right. unfold adapter_itemsQuery, storage_read. run.
    match goal with
    | |- context [itemsQuery (adapter L) ?q (store w)] =>
        exists (ItemsQuery q);
        destruct (itemsQuery (adapter L) q (store w)) as [[|item items]|e']
    end; auto.
Qed.

(** *** Looking several items up *)

Lemma includes_In (l : list prim) (x : prim) : includes l x = true <-> In x l.
Proof.
  unfold includes. rewrite existsb_exists. split.
  - intros (y & Hy & Heq). unfold prim_eqb in Heq.
    apply bool_decide_eq_true in Heq. now subst.
  - intros Hx. exists x. split; [assumption|].
    unfold prim_eqb. now apply bool_decide_eq_true.
Qed.

Lemma prim_eqb_neq (x y : prim) : negb (prim_eqb x y) = true <-> x <> y.
Proof.
  unfold prim_eqb. rewrite negb_true_iff, bool_decide_eq_false. reflexivity.
Qed.

Lemma In_unique (l : list prim) (x : prim) : In x (unique l) <-> In x l.
Proof.
  induction l as [|y l IH]; simpl; [reflexivity|].
  rewrite filter_In, IH, prim_eqb_neq.
  destruct (decide (x = y)) as [->|Hne]; [tauto|].
  split; [tauto|]. intros [Heq|Hin]; [congruence | tauto].
Qed.

Lemma NoDup_unique (l : list prim) : List.NoDup (unique l).
Proof.
  induction l as [|y l IH]; simpl; constructor.
  - rewrite filter_In, prim_eqb_neq. tauto.
  - now apply List.NoDup_filter.
Qed.

Lemma In_intersection (a b : list prim) (x : prim) :
  In x (intersection a b) <-> In x a /\ In x b.
Proof.
  unfold intersection. now rewrite In_unique, filter_In, includes_In.
Qed.

Lemma In_truthy_ids (a : prim) (b : option (list prim)) (x : prim) :
  In x (truthy_ids a b)
  <-> prim_truthy x = true /\ (x = a \/ exists l, b = Some l /\ In x l).
Proof.
  unfold truthy_ids. rewrite In_unique, filter_In. simpl.
  destruct b as [l|]; simpl.
  - split.
    + intros [[->|Hin] Ht]; eauto.
    + intros [Ht [->|(l' & [= <-] & Hin)]]; auto.
  - split.
    + intros [[->|[<-|[]]] Ht]; [auto | discriminate].
    + intros [Ht [->|(l' & [=] & _)]]; auto.
Qed.

Lemma empty_iff_no_member {A} (l : list A) : l = [] <-> forall x, ~ In x l.
Proof.
  split; [now intros ->|].
  destruct l as [|x l]; [reflexivity|]. intros H. destruct (H x). now left.
Qed.

(** Two duplicate-free id arrays, one within the other, have the same
    length exactly when they hold the same ids. *)
Lemma same_length_iff_incl (x u : list prim) :
  List.NoDup x -> List.NoDup u -> incl x u ->
  length x = length u <-> incl u x.
Proof.
  intros Hx Hu Hxu. split.
  - intros Hlen. apply List.NoDup_length_incl; [assumption | lia | assumption].
  - intros Hux. apply Nat.le_antisymm; now apply List.NoDup_incl_length.
Qed.

(** The early return of the code is taken exactly when the id constraints
    leave no requested id accessible. *)
(** The ids the code collects as allowed and as disallowed are the ids the
    clause allows and disallows. *)
Lemma allowed_iff (c : where_clause) (id : prim) :
  In id (accessControlIdsAllowed c) <-> allows_id c id.
Proof. unfold accessControlIdsAllowed, allows_id. apply In_truthy_ids. Qed.

Lemma disallowed_iff (c : where_clause) (id : prim) :
  In id (accessControlIdsDisallowed c) <-> disallows_id c id.
Proof. unfold accessControlIdsDisallowed, disallows_id. apply In_truthy_ids. Qed.

Lemma NoDup_intersection (a b : list prim) : List.NoDup (intersection a b).
Proof. apply NoDup_unique. Qed.

Lemma nothing_accessible_iff (c : where_clause) (ids : list prim) :
  ids <> [] ->
  nothing_accessible c (unique ids) = true <-> no_id_accessible c ids.
Proof.
  intros Hne.
  unfold nothing_accessible, no_id_accessible, names_allowed_ids, names_disallowed_ids.
  setoid_rewrite <- allowed_iff. setoid_rewrite <- disallowed_iff.
  rewrite orb_true_iff, Nat.eqb_eq, length_zero_iff_nil.
  apply Morphisms_Prop.or_iff_morphism.
  - unfold idFilters_id_in.
    destruct (prim_truthy (w_id c) || bool_decide (is_Some (w_id_in c))) eqn:E.
    + rewrite empty_iff_no_member.
      apply orb_true_iff in E. rewrite bool_decide_eq_true in E.
      split.
      * intros H. split; [exact E|]. intros id Hid Hall.
        apply (H id). apply In_intersection. split; [exact Hall|].
        now rewrite In_unique.
      * intros [_ H] id Hid. apply In_intersection in Hid as [Hall Hid].
        rewrite In_unique in Hid. now apply (H id).
    + apply orb_false_iff in E as [E1 E2]. rewrite bool_decide_eq_false in E2.
      split.
      * intros H. destruct ids; [congruence|]. simpl in H. discriminate.
      * intros [[H|H] _]; [congruence | contradiction].
  - unfold idFilters_id_not_in, accessControlIdsDisallowed.
    destruct (prim_truthy (w_id_not c) || bool_decide (is_Some (w_id_not_in c)))
      eqn:E.
    + apply orb_true_iff in E. rewrite bool_decide_eq_true in E.
      rewrite Nat.eqb_eq, same_length_iff_incl.
      * unfold incl. split.
        -- intros H. split; [exact E|]. intros id Hid.
           assert (Hu : In id (unique ids)) by now rewrite In_unique.
           apply H in Hu. rewrite In_intersection in Hu. tauto.
        -- intros [_ H] id Hid. apply In_intersection. split; [|exact Hid].
           apply H. now rewrite In_unique in Hid.
      * apply NoDup_unique.
      * apply NoDup_unique.
      * intros id Hid. now apply In_intersection in Hid.
    + apply orb_false_iff in E as [E1 E2]. rewrite bool_decide_eq_false in E2.
      split; [discriminate|]. intros [[H|H] _]; [congruence | contradiction].
Qed.

(** X25. A batch lookup under a where-clause narrows the requested ids in
    memory first. When the id constraints leave no requested id accessible
    (ids are allowed and none of them was requested, or every requested id
    is disallowed) the result is the empty array and the world is untouched:
    no storage query. Otherwise it is the result of one storage query,
    passed through as it is, so that an excluded id raises nothing. That
    query has no [first], no [id] and no [id_not], and the other conditions
    of the clause; its [id_in] holds each requested id once, the allowed
    ones only when the clause names allowed ids; its [id_not_in] is set
    when the clause names disallowed ids, and then holds the requested ids
    that the clause disallows. *)
Theorem getAccessControlledItems_narrows L (ids : list prim)
    (c : where_clause) w :
  (no_id_accessible c ids ->
     getAccessControlledItems L ids (AccessWhere c) w = (Ret [], w))
  /\ (ids <> [] -> ~ no_id_accessible c ids ->
      exists q l_in,
        getAccessControlledItems L ids (AccessWhere c) w
        = (itemsQuery (adapter L) q (store w), log (Storage (key L) (ItemsQuery q)) w)
        /\ q_first q = None /\ q_other q = []
        /\ w_id (q_where q) = PUndefined /\ w_id_not (q_where q) = PUndefined
        /\ w_other (q_where q) = w_other c
        /\ w_id_in (q_where q) = Some l_in
        /\ List.NoDup l_in
        /\ (forall id, In id l_in
                       <-> In id ids /\ (names_allowed_ids c -> allows_id c id))
        /\ match w_id_not_in (q_where q) with
           | Some l_out =>
               names_disallowed_ids c
               /\ List.NoDup l_out
               /\ forall id, In id l_out <-> In id ids /\ disallows_id c id
           | None => ~ names_disallowed_ids c
           end).
Proof.
  split.
  - intros Hno. destruct ids as [|i ids']; [reflexivity|].
    unfold getAccessControlledItems. simpl access_is_true. cbv iota.
    change (access_where (AccessWhere c)) with c.
    apply nothing_accessible_iff in Hno; [|discriminate].
    now rewrite Hno.
  - intros Hne Hsome.
    exists (QueryArgs None
              (Where PUndefined PUndefined
                 (Some (idFilters_id_in c (unique ids)))
                 (idFilters_id_not_in c (unique ids)) (w_other c)) []),
           (idFilters_id_in c (unique ids)).
    split.
    { destruct ids as [|i ids']; [congruence|].
      unfold getAccessControlledItems. simpl access_is_true. cbv iota.
      change (access_where (AccessWhere c)) with c.
      destruct (nothing_accessible c (unique (i :: ids'))) eqn:E.
      + apply nothing_accessible_iff in E; [contradiction | discriminate].
      + reflexivity. }
    simpl. do 6 (split; [reflexivity|]).
    unfold idFilters_id_in, idFilters_id_not_in, names_allowed_ids,
      names_disallowed_ids.
    split; [|split].
    + destruct (prim_truthy (w_id c) || bool_decide (is_Some (w_id_in c)));
        [apply NoDup_intersection | apply NoDup_unique].
    + intros id.
      destruct (prim_truthy (w_id c) || bool_decide (is_Some (w_id_in c))) eqn:E.
      * apply orb_true_iff in E. rewrite bool_decide_eq_true in E.
        rewrite In_intersection, In_unique, allowed_iff. tauto.
      * apply orb_false_iff in E as [E1 E2]. rewrite bool_decide_eq_false in E2.
        rewrite In_unique. split; [|tauto].
        intros Hin. split; [exact Hin|]. intros [H|H]; [congruence | contradiction].
    + destruct (prim_truthy (w_id_not c) || bool_decide (is_Some (w_id_not_in c)))
        eqn:E.
      * apply orb_true_iff in E. rewrite bool_decide_eq_true in E.
        split; [exact E|]. split; [apply NoDup_intersection|].
        intros id. rewrite In_intersection, In_unique, disallowed_iff. tauto.
      * apply orb_false_iff in E as [E1 E2]. rewrite bool_decide_eq_false in E2.
        intros [H|H]; [congruence | contradiction].
Qed.

(** Under full access the batch lookup is one query for the requested ids. *)
Lemma getAccessControlledItems_full_access L (ids : list prim) w :
  ids <> [] ->
  getAccessControlledItems L ids (AccessBool true) w
  = (let q := QueryArgs None
                (Where PUndefined PUndefined (Some (unique ids)) None []) [] in
     (itemsQuery (adapter L) q (store w), log (Storage (key L) (ItemsQuery q)) w)).
Proof. destruct ids; [congruence|reflexivity]. Qed.

(** The batch lookup reads the storage at most once and changes nothing
    else. *)
Lemma getAccessControlledItems_reads L (ids : list prim) acc w :
  snd (getAccessControlledItems L ids acc w) = w
  \/ exists call,
       snd (getAccessControlledItems L ids acc w) = log (Storage (key L) call) w
       /\ is_storage_write (Storage (key L) call) = false.
Proof.
  unfold getAccessControlledItems. destruct ids as [|i ids']; [now left|].
  destruct (access_is_true acc).
  - right. eexists (ItemsQuery _). split; reflexivity.
  - destruct (nothing_accessible _ _); [now left|].
    right. eexists (ItemsQuery _). split; reflexivity.
Qed.

(** *** Field-level access *)

Lemma checkFieldAccess_denied {S} L op items ctx gqlName extra (s : S) :
  restrictedFields L op ctx items <> [] ->
  checkFieldAccess L op items ctx gqlName extra s
  = (Throw (field_access_denied op ctx gqlName extra
              (restrictedFields L op ctx items)), s).
Proof.
  intros Hsome. unfold checkFieldAccess.
  destruct (restrictedFields L op ctx items); [congruence | reflexivity].
Qed.

(** C6, as the code has it. A write whose input holds a field the caller
    may not write aborts with an [AccessDeniedError] that lists the
    restricted paths, before any write to the storage and before any hook.
    A create aborts before any storage call at all; an update has read the
    existing item (or items) first, because the field rule is evaluated
    against it, and that read is all that happened. *)
Theorem denied_field_aborts_write L ctx w :
  (forall data ms,
      access_truthy (getListAccessControlForUser ctx (key L) Create) = true ->
      restrictedFields L Create ctx [(None, data)] <> [] ->
      createMutation resolveBacklinks L data ctx ms w
      = (Throw (field_access_denied Create ctx
                  (Some (createMutationName (gqlNames L))) []
                  (restrictedFields L Create ctx [(None, data)])), w))
  /\ (forall data ms,
      access_truthy (getListAccessControlForUser ctx (key L) Create) = true ->
      restrictedFields L Create ctx (map (fun d => (None, d)) data) <> [] ->
      createManyMutation resolveBacklinks L data ctx ms w
      = (Throw (field_access_denied Create ctx
                  (Some (createManyMutationName (gqlNames L))) []
                  (restrictedFields L Create ctx
                     (map (fun d => (None, d)) data))), w))
  /\ (forall id data ms existingItem w1,
      access_truthy (getListAccessControlForUser ctx (key L) Update) = true ->
      getAccessControlledItem L id (getListAccessControlForUser ctx (key L) Update)
        ctx Update (Some (updateMutationName (gqlNames L))) w
      = (Ret existingItem, w1) ->
      restrictedFields L Update ctx [(Some existingItem, data)] <> [] ->
      updateMutation resolveBacklinks L id data ctx ms w
      = (Throw (field_access_denied Update ctx
                  (Some (updateMutationName (gqlNames L)))
                  [("itemId", VPrim id)]
                  (restrictedFields L Update ctx [(Some existingItem, data)])),
         w1)
      /\ read_at_most_once L w w1)
  /\ (forall data ms existingItems w1,
      let items :=
        map (fun item => (fst (fst item), snd item))
          (zipObj existingItems (map fst data) (map snd data)) in
      access_truthy (getListAccessControlForUser ctx (key L) Update) = true ->
      getAccessControlledItems L (map fst data)
        (getListAccessControlForUser ctx (key L) Update) w
      = (Ret existingItems, w1) ->
      restrictedFields L Update ctx items <> [] ->
      updateManyMutation resolveBacklinks zipObj L data ctx ms w
      = (Throw (field_access_denied Update ctx
                  (Some (updateManyMutationName (gqlNames L)))
                  [("itemId", VArr (map VPrim (map fst data)))]
                  (restrictedFields L Update ctx items)),
         w1)
      /\ read_at_most_once L w w1).
Proof.
  split; [|split; [|split]].
  - intros data ms Hok Hdenied. unfold createMutation.
    unfold mbind at 1, M_bind at 1.
    rewrite (checkListAccess_allowed _ _ _ _ _ _ Hok).
    unfold mbind at 1, M_bind at 1.
    now rewrite (checkFieldAccess_denied _ _ _ _ _ _ _ Hdenied).
  - intros data ms Hok Hdenied. unfold createManyMutation.
    unfold mbind at 1, M_bind at 1.
    rewrite (checkListAccess_allowed _ _ _ _ _ _ Hok).
    unfold mbind at 1, M_bind at 1.
    now rewrite (checkFieldAccess_denied _ _ _ _ _ _ _ Hdenied).
  - intros id data ms existingItem w1 Hok Hfound Hdenied. split.
    + unfold updateMutation.
      unfold mbind at 1, M_bind at 1.
      rewrite (checkListAccess_allowed _ _ _ _ _ _ Hok).
      unfold mbind at 1, M_bind at 1. rewrite Hfound.
      unfold mbind at 1, M_bind at 1.
      now rewrite (checkFieldAccess_denied _ _ _ _ _ _ _ Hdenied).
    + pose proof (getAccessControlledItem_reads L id
                    (getListAccessControlForUser ctx (key L) Update) ctx Update
                    (Some (updateMutationName (gqlNames L))) w) as Hreads.
      rewrite Hfound in Hreads. exact Hreads.
  - intros data ms existingItems w1 items Hok Hfound Hdenied. split.
    + unfold updateManyMutation.
      unfold mbind at 1, M_bind at 1.
      rewrite (checkListAccess_allowed _ _ _ _ _ _ Hok).
      unfold mbind at 1, M_bind at 1. rewrite Hfound.
      unfold mbind at 1, M_bind at 1.
      now rewrite (checkFieldAccess_denied _ _ _ _ _ _ _ Hdenied).
    + pose proof (getAccessControlledItems_reads L (map fst data)
                    (getListAccessControlForUser ctx (key L) Update) w) as Hreads.
      rewrite Hfound in Hreads. exact Hreads.
Qed.

(** *** Validation *)

Lemma call_hook_quiet L hookName who hook ctx args (tr : list event) :
  thrown (hook ctx args) = None ->
  call_hook L hookName who hook ctx args tr
  = (Ret (added (hook ctx args)), tr ++ [HookCall (key L) hookName who args]).
Proof. intros Hquiet. unfold call_hook, emit. run. now rewrite Hquiet. Qed.

Lemma call_hook_throws L hookName who hook ctx args (tr : list event) e :
  thrown (hook ctx args) = Some e ->
  call_hook L hookName who hook ctx args tr
  = (Throw e, tr ++ [HookCall (key L) hookName who args]).
Proof. intros Hthrows. unfold call_hook, emit. run. now rewrite Hthrows. Qed.

(** Hooks that do not throw are all run, in the order of the fields, and
    what each one added is kept under the path of its field. *)
Lemma settle_all_hooks L hookName (who : string -> participant)
    (hook : @Field Store -> context -> hook_args -> hook_result) ctx args
    (fs : list (@Field Store)) (tr : list event) :
  Forall (fun field => thrown (hook field ctx args) = None) fs ->
  settle_all fs
    (fun field => call_hook L hookName (who (path field)) (hook field) ctx args) tr
  = (map (fun field => (path field, added (hook field ctx args))) fs, [],
     tr ++ map (fun field => HookCall (key L) hookName (who (path field)) args) fs).
Proof.
  intros Hquiet. revert tr.
  induction Hquiet as [|field fs Hfield _ IH]; intros tr; simpl.
  - now rewrite app_nil_r.
  - rewrite (call_hook_quiet _ _ _ _ _ _ _ Hfield), IH.
    now rewrite <- app_assoc.
Qed.

Lemma _mapToFields_hooks L hookName (who : string -> participant)
    (hook : @Field Store -> context -> hook_args -> hook_result) ctx args
    (fs : list (@Field Store)) (tr : list event) :
  Forall (fun field => thrown (hook field ctx args) = None) fs ->
  _mapToFields fs
    (fun field => call_hook L hookName (who (path field)) (hook field) ctx args) tr
  = (Ret (map (fun field => (path field, added (hook field ctx args))) fs),
     tr ++ map (fun field => HookCall (key L) hookName (who (path field)) args) fs).
Proof.
  intros Hquiet. unfold _mapToFields.
  now rewrite (settle_all_hooks _ _ _ _ _ _ _ _ Hquiet).
Qed.

Lemma concat_added {A B} (f : A -> string) (g : A -> list B) (l : list A) :
  concat (map snd (map (fun x => (f x, g x)) l)) = concat (map g l).
Proof. now rewrite map_map. Qed.

(** One validation phase: every field participant runs; what they added is
    raised at once, and the list hook is then not run at all. *)
Lemma _validateHook_groups L ctx args (fs : list (@Field Store)) op hookName
    (tr : list event) :
  fields_do_not_throw ctx args fs hookName ->
  _validateHook L ctx args fs op hookName tr
  = match field_validation_errors ctx args fs hookName with
    | _ :: _ =>
        (Throw (validation_failure L
                  (field_validation_errors ctx args fs hookName) op
                  (originalInput args)),
         tr ++ field_hook_events L args fs hookName)
    | [] =>
        list_hook_outcome L ctx args op hookName
          (tr ++ field_hook_events L args fs hookName)
    end.
Proof.
  intros [Hbuiltin Huser]. unfold _validateHook.
  unfold mbind at 1, M_bind at 1.
  rewrite (_mapToFields_hooks L hookName FieldBuiltin
             (fun field => method field hookName) ctx args fs tr Hbuiltin).
  unfold mbind at 1, M_bind at 1.
  rewrite (_mapToFields_hooks L hookName FieldHook
             (fun field => user_hook hookName field) ctx args _ _ Huser).
  rewrite !concat_added, <- app_assoc.
  fold (field_hook_events L args fs hookName).
  fold (field_validation_errors ctx args fs hookName).
  destruct (field_validation_errors ctx args fs hookName) as [|e errors] eqn:E.
  - unfold list_hook_outcome.
    destruct (list_hooks L hookName) as [hook|]; [|reflexivity].
    unfold mbind, M_bind.
    destruct (thrown (hook ctx args)) as [e|] eqn:Hthrown.
    + now rewrite (call_hook_throws _ _ _ _ _ _ _ _ Hthrown).
    + rewrite (call_hook_quiet _ _ _ _ _ _ _ Hthrown).
      destruct (added (hook ctx args)); reflexivity.
  - reflexivity.
Qed.

(** C1, as the code has it. Validating the input of a write raises one
    [ValidationFailureError] at most, and its messages are all those of
    the first group that found a failure: the required fields that are
    missing; else the field participants, built-in and user hooks
    together; else the list hook. The groups after it do not run, so what
    they would have reported is not in the error. *)
Theorem _validateInput_raises_first_group L (resolvedData : obj)
    (existingItem : option obj) ctx op (originalInput : value)
    (tr : list event) :
  let args := HookArgs (Some resolvedData) existingItem originalInput None in
  let fs := _fieldsFromObject L resolvedData in
  let missing := List.filter (required_but_missing op resolvedData) (fields L) in
  let fieldErrors := field_validation_errors ctx args fs validateInput in
  fields_do_not_throw ctx args fs validateInput ->
  _validateInput L resolvedData existingItem ctx op originalInput tr
  = match missing with
    | _ :: _ =>
        (Throw (validation_failure L
                  (map (required_error op resolvedData originalInput) missing)
                  op originalInput), tr)
    | [] =>
        match fieldErrors with
        | _ :: _ =>
            (Throw (validation_failure L fieldErrors op originalInput),
             tr ++ field_hook_events L args fs validateInput)
        | [] =>
            list_hook_outcome L ctx args op validateInput
              (tr ++ field_hook_events L args fs validateInput)
        end
    end.
Proof.
  intros args fs missing fieldErrors Hquiet. unfold _validateInput.
  fold missing. destruct missing as [|f missing']; [|reflexivity].
  change (_validateHook L ctx args fs op validateInput tr = 
          match fieldErrors with
          | [] =>
              list_hook_outcome L ctx args op validateInput
                (tr ++ field_hook_events L args fs validateInput)
          | _ :: _ =>
              (Throw (validation_failure L fieldErrors op originalInput),
               tr ++ field_hook_events L args fs validateInput)
          end).
  now rewrite (_validateHook_groups L ctx args fs op validateInput tr Hquiet).
Qed.

(** *** Nested mutations *)

Lemma stack_of_set_stack (r : nat) (stack : list after_hook) w ms :
  mutationStates w !! r = Some ms ->
  stack_of r (set_stack r stack w) = stack.
Proof.
  intros Hms. unfold stack_of, set_stack. simpl.
  now rewrite list_lookup_alter_eq, Hms.
Qed.

Lemma lookup_set_stack (r : nat) (stack : list after_hook) w ms :
  mutationStates w !! r = Some ms ->
  mutationStates (set_stack r stack w) !! r
  = Some (MutationState stack (queues ms) (transaction ms)).
Proof.
  intros Hms. unfold set_stack. simpl. now rewrite list_lookup_alter_eq, Hms.
Qed.

Lemma set_stack_set_stack (r : nat) (s1 s2 : list after_hook) w tr :
  set_stack r s1 (set_trace (set_stack r s2 w) tr)
  = set_trace (set_stack r s1 w) tr.
Proof.
  unfold set_stack, set_trace, set_mutationStates. simpl. f_equal.
  rewrite list_alter_alter_eq. now apply list_alter_ext.
Qed.

Lemma set_stack_same (r : nat) w ms :
  mutationStates w !! r = Some ms ->
  set_stack r (afterChangeStack ms) w = w.
Proof.
  intros Hms. unfold set_stack, set_mutationStates. destruct w as [st tr mss ds].
  simpl in *. f_equal.
  rewrite <- (list_alter_id id mss r) at 2 by reflexivity.
  apply list_alter_ext; [|reflexivity].
  intros x Hx. rewrite Hms in Hx. injection Hx as <-. now destruct ms.
Qed.

(** The root's loop runs every pending callback, the one pushed last
    first, and leaves the stack empty. *)
Lemma drain_all (r : nat) (pending : list after_hook) :
  forall w ms tr',
    mutationStates w !! r = Some ms ->
    afterChangeStack ms = pending ->
    run_afterHooks (rev pending) (trace w) = (Ret tt, tr') ->
    drain r (length pending) w = (Ret tt, set_trace (set_stack r [] w) tr').
Proof.
  induction pending as [|h init IH] using rev_ind; intros w ms tr' Hms Hstack Hrun.
  - simpl in *. injection Hrun as <-. unfold mret, M_ret. f_equal.
    rewrite <- Hstack, (set_stack_same _ _ _ Hms). now destruct w.
  - rewrite length_app, Nat.add_1_r. simpl drain.
    rewrite rev_unit in Hrun. simpl in Hrun.
    unfold mbind at 1, M_bind at 1 in Hrun.
    destruct (h tt (trace w)) as [[[]|e] tr1] eqn:Hh; [|discriminate].
    unfold mbind at 1, M_bind at 1. unfold pop_afterHook.
    assert (Hpending : stack_of r w = init ++ [h]).
    { unfold stack_of. now rewrite Hms. }
    rewrite Hpending, last_snoc, removelast_last.
    unfold mbind at 1, M_bind at 1. unfold in_trace at 1.
    change (trace (set_stack r init w)) with (trace w). rewrite Hh.
    rewrite (IH (set_trace (set_stack r init w) tr1)
               (MutationState init (queues ms) (transaction ms)) tr').
    + now rewrite set_stack_set_stack.
    + change (mutationStates (set_trace (set_stack r init w) tr1))
        with (mutationStates (set_stack r init w)).
      now apply lookup_set_stack.
    + reflexivity.
    + exact Hrun.
Qed.

(** A nested mutation leaves its callback on the shared stack, on top of
    those of the writes nested in it, and runs none. *)
Lemma nested_mutation_enqueues {A} ctx
    (mutation : nat -> M (@world Store) (A * after_hook)) w (r : nat)
    (result : A) (afterHook : after_hook) w2 w3 :
  mutation r w = (Ret (result, afterHook), w2) ->
  resolveBacklinks ctx r w2 = (Ret tt, w3) ->
  _nestedMutation resolveBacklinks (Some r) ctx mutation w
  = (Ret result, set_stack r (stack_of r w3 ++ [afterHook]) w3).
Proof.
  intros Hmutation Hbacklinks. unfold _nestedMutation. run.
  rewrite Hmutation. simpl. now rewrite Hbacklinks.
Qed.

(** C2, as the code has it. A root mutation pushes its own callback on
    top of those its nested writes left on the shared stack, and then
    drains the stack from the top: its own [afterChange] runs first, then
    those of the nested writes, the one pushed last first. All of them
    have run when the root call returns its result, and the stack is
    empty. *)
Theorem root_mutation_runs_own_hook_first {A} ctx
    (mutation : nat -> M (@world Store) (A * after_hook)) w
    (result : A) (afterHook : after_hook) w2 w3
    (nested : list after_hook) (q t : obj) (tr' : list event) :
  let r := length (mutationStates w) in
  mutation r (snd (enter None w)) = (Ret (result, afterHook), w2) ->
  resolveBacklinks ctx r w2 = (Ret tt, w3) ->
  mutationStates w3 !! r = Some (MutationState nested q t) ->
  run_afterHooks (afterHook :: rev nested) (trace w3) = (Ret tt, tr') ->
  _nestedMutation resolveBacklinks None ctx mutation w
  = (Ret result, set_trace (set_stack r [] w3) tr').
Proof.
  intros r Hmutation Hbacklinks Hstack Hrun.
  unfold _nestedMutation, new_mutationState. run. fold r.
  rewrite Hmutation. simpl. rewrite Hbacklinks.
  assert (Hpushed : stack_of r w3 = nested).
  { unfold stack_of. now rewrite Hstack. }
  unfold push_afterHook. rewrite Hpushed.
  rewrite (stack_of_set_stack _ _ _ _ Hstack).
  rewrite (drain_all r (nested ++ [afterHook])
             (set_stack r (nested ++ [afterHook]) w3)
             (MutationState (nested ++ [afterHook]) q t) tr').
  - f_equal. rewrite <- (set_stack_set_stack r [] (nested ++ [afterHook]) w3 tr').
    now destruct w3.
  - now apply (lookup_set_stack _ _ _ _ Hstack).
  - reflexivity.
  - now rewrite rev_unit.
Qed.

(** *** Creating an item *)

Lemma _nestedMutation_ext {A} ms ctx
    (m1 m2 : nat -> M (@world Store) (A * after_hook)) w :
  (forall r w', m1 r w' = m2 r w') ->
  _nestedMutation resolveBacklinks ms ctx m1 w
  = _nestedMutation resolveBacklinks ms ctx m2 w.
Proof.
  intros Hext. unfold _nestedMutation. run.
  destruct ms as [r|]; simpl; now rewrite Hext.
Qed.

(** Destructs the outcome of the first step the goal still matches on. *)
Ltac step :=
  match goal with
  | |- context [match ?m ?s with (_, _) => _ end] =>
      lazymatch m with
      | context [match _ with _ => _ end] => fail
      | _ => destruct (m s) as [[?|?] ?]
      end
  end.

(** [_createSingle] is [_nestedMutation] over the steps named above. *)
Lemma _createSingle_steps L (data : obj) (existingItem : option obj) ctx ms w :
  _createSingle resolveBacklinks L data existingItem ctx ms w
  = _nestedMutation resolveBacklinks ms ctx
      (create_mutation L data existingItem ctx) w.
Proof.
  unfold _createSingle. apply _nestedMutation_ext. intros r w'.
  unfold create_mutation, create_prepared, create_resolved, create_persist,
    create_afterHook.
  unfold mbind, M_bind, mret, M_ret.
  repeat (step; try reflexivity).
Qed.

(** Draining the stack settles no handle. *)
Lemma drain_keeps_deferreds (r n : nat) w :
  deferreds (snd (drain r n w)) = deferreds w.
Proof.
  revert w. induction n as [|n IH]; intros w; [reflexivity|].
  simpl. unfold pop_afterHook, mbind, M_bind.
  destruct (last (stack_of r w)) as [h|]; [|reflexivity].
  unfold in_trace. simpl.
  destruct (h tt (trace w)) as [[[]|e] tr]; [|reflexivity].
  now rewrite IH.
Qed.

(** What [_nestedMutation] does once its mutation returned leaves the
    handles as the mutation left them, as long as resolving the backlinks
    does, and what it returns is the result of the mutation. *)
Lemma _nestedMutation_keeps_deferreds {A} ctx ms
    (mutation : nat -> M (@world Store) (A * after_hook)) w
    (result : A) (afterHook : after_hook) w3 :
  (forall w', deferreds (snd (resolveBacklinks ctx (fst (enter ms w)) w'))
              = deferreds w') ->
  mutation (fst (enter ms w)) (snd (enter ms w)) = (Ret (result, afterHook), w3) ->
  let r := _nestedMutation resolveBacklinks ms ctx mutation w in
  deferreds (snd r) = deferreds w3
  /\ forall a, fst r = Ret a -> a = result.
Proof.
  intros Hframe Hbody r.
  destruct r as [o w'] eqn:Hr. subst r. simpl. revert Hr.
  unfold _nestedMutation. unfold mbind at 1, M_bind at 1.
  assert (Henter : (match ms with
                    | None => new_mutationState
                    | Some ms => mret ms
                    end) w = (Ret (fst (enter ms w)), snd (enter ms w)))
    by now destruct ms.
  rewrite Henter. unfold mbind at 1, M_bind at 1. rewrite Hbody.
  unfold mbind at 1, M_bind at 1.
  specialize (Hframe w3).
  destruct (resolveBacklinks ctx (fst (enter ms w)) w3) as [[[]|e] w4];
    simpl in Hframe; [|intros [= <- <-]; split; [exact Hframe | discriminate]].
  unfold push_afterHook, modify. unfold mbind at 1, M_bind at 1.
  set (w5 := set_stack _ _ w4).
  assert (H5 : deferreds w5 = deferreds w3) by exact Hframe.
  destruct (bool_decide (ms = None)).
  - unfold gets. unfold mbind at 1, M_bind at 1. unfold mbind at 1, M_bind at 1.
    pose proof (drain_keeps_deferreds (fst (enter ms w))
                  (length (stack_of (fst (enter ms w)) w5)) w5) as Hdrain.
    destruct (drain _ _ w5) as [[[]|e] w6]; simpl in *; intros [= <- <-].
    + split; [congruence | now intros a [= <-]].
    + split; [congruence | discriminate].
  - simpl. intros [= <- <-]. split; [exact H5 | now intros a [= <-]].
Qed.

(** C7. When the storage fails to persist a create, the deferred handle
    of that create is rejected with the storage error, the same error is
    what [_createSingle] throws, and nothing else happened since the
    [beforeChange] hooks: no callback was pushed on any after-change stack
    and no hook ran. When the storage persists the item, [_createSingle]
    leaves the handle resolved with the created item, which is also the item
    it returns if it returns; that much as long as resolving the backlinks
    settles no handle. *)
Theorem create_persist_settles_handle L (data : obj)
    (existingItem : option obj) ctx ms w (handle : nat) (resolvedData : obj) w2 :
  create_prepared L data existingItem ctx (fst (enter ms w)) (snd (enter ms w))
  = (Ret (handle, resolvedData), w2) ->
  deferreds w2 !! handle = Some Pending ->
  let persisted st :=
    log (Storage (key L) (CreateItem resolvedData)) (set_store w2 st) in
  match create (adapter L) resolvedData (store w2) with
  | (Throw e, st) =>
      let w3 := snd (reject handle e (persisted st)) in
      _createSingle resolveBacklinks L data existingItem ctx ms w = (Throw e, w3)
      /\ deferreds w3 !! handle = Some (Rejected e)
      /\ mutationStates w3 = mutationStates w2
      /\ trace w3 = trace w2 ++ [Storage (key L) (CreateItem resolvedData)]
  | (Ret newItem, st) =>
      (forall w', deferreds (snd (resolveBacklinks ctx (fst (enter ms w)) w'))
                  = deferreds w') ->
      let r := _createSingle resolveBacklinks L data existingItem ctx ms w in
      deferreds (snd r) !! handle = Some (Resolved newItem)
      /\ forall item, fst r = Ret item -> item = newItem
  end.
Proof.
  intros Hprepared Hpending persisted.
  destruct (create (adapter L) resolvedData (store w2)) as [[newItem|e] st] eqn:Hcreate.
  - intros Hframe r. subst r. rewrite _createSingle_steps.
    assert (Hbody : create_mutation L data existingItem ctx (fst (enter ms w))
                      (snd (enter ms w))
                    = (Ret (newItem, create_afterHook L newItem existingItem ctx),
                       snd (resolve handle newItem (persisted st)))).
    { unfold create_mutation. unfold mbind at 1, M_bind at 1.
      rewrite Hprepared. unfold create_persist, try_catch, adapter_create,
        storage_write. run. now rewrite Hcreate. }
    destruct (_nestedMutation_keeps_deferreds ctx ms
                (create_mutation L data existingItem ctx) w _ _ _ Hframe Hbody)
      as [Hkept Hresult].
    split; [|exact Hresult].
    rewrite Hkept. unfold resolve, settle. run.
    now rewrite list_lookup_alter_eq, Hpending.
  - split; [|split; [|split]].
    + rewrite _createSingle_steps. unfold _nestedMutation.
      assert (Hbody : create_mutation L data existingItem ctx (fst (enter ms w))
                        (snd (enter ms w))
                      = (Throw e, snd (reject handle e (persisted st)))).
      { unfold create_mutation. unfold mbind at 1, M_bind at 1.
        rewrite Hprepared. unfold create_persist, try_catch, adapter_create,
          storage_write. run. now rewrite Hcreate. }
      destruct ms as [r|]; run; now rewrite Hbody.
    + unfold reject, settle. run.
      now rewrite list_lookup_alter_eq, Hpending.
    + reflexivity.
    + reflexivity.
Qed.

(** C8, as the code has it. A create whose resolved data (the input once
    the defaults, the relationships and the [resolveInput] hooks have been
    applied) leaves a required field that is not a relationship undefined
    or null throws one [ValidationFailureError], with one message for each
    such field, naming its path, in the order of the fields. The world is
    the one the resolution left: the storage was not asked to create the
    item and no later hook ran. *)
Theorem missing_required_field_fails_create L (data : obj)
    (existingItem : option obj) ctx ms w (handle : nat) (resolvedData : obj) w1 :
  let missing := List.filter (required_but_missing Create resolvedData) (fields L) in
  create_resolved L data existingItem ctx (fst (enter ms w)) (snd (enter ms w))
  = (Ret (handle, resolvedData), w1) ->
  missing <> [] ->
  _createSingle resolveBacklinks L data existingItem ctx ms w
  = (Throw (ValidationFailureError
              (ValidationFailureData
                 (map (fun f => required_message (path f)) missing)
                 (map (fun f =>
                         errorData (required_error Create resolvedData (VObj data) f))
                    missing)
                 (key L) Create)
              (map (fun _ => VObj []) missing)
              (VObj data)),
     w1).
Proof.
  intros missing Hresolved Hmissing.
  rewrite _createSingle_steps. unfold _nestedMutation.
  assert (Hbody : create_mutation L data existingItem ctx (fst (enter ms w))
                    (snd (enter ms w))
                  = (Throw (validation_failure L
                              (map (required_error Create resolvedData (VObj data))
                                 missing) Create (VObj data)), w1)).
  { unfold create_mutation, create_prepared.
    unfold mbind at 1, M_bind at 1. unfold mbind at 1, M_bind at 1.
    rewrite Hresolved.
    unfold mbind at 1, M_bind at 1. unfold in_trace at 1, _validateInput.
    fold missing. destruct missing as [|f rest]; [congruence|].
    simpl. now destruct w1. }
  unfold validation_failure in Hbody. rewrite !map_map in Hbody. simpl in Hbody.
  destruct ms as [r|]; run; now rewrite Hbody.
Qed.

(** *** More on the lookups *)

(** X9. Looking one item up touches the storage at most once, with a read,
    and changes nothing else in the world; when the id constraints of the
    clause exclude the id it does not touch the storage at all. *)
Theorem lookup_reads_at_most_once L id acc ctx op gqlName w :
  read_at_most_once L w (snd (getAccessControlledItem L id acc ctx op gqlName w))
  /\ (access_is_true acc = false -> excludes_id acc id = true ->
      getAccessControlledItem L id acc ctx op gqlName w
      = (Throw (access_denied op ctx gqlName [("itemId", VPrim id)]), w)).
Proof.
  split.
  - exact (getAccessControlledItem_reads L id acc ctx op gqlName w).
  - intros Hfalse Hexcl. unfold getAccessControlledItem.
    now rewrite Hfalse, Hexcl.
Qed.

(** X10. An item the lookup returns is the one the storage found: the
    result of [findById] under full access, else the first result of a query
    limited to one item whose where-clause is the caller's clause with the
    requested id as its [id]. That [id] never replaces a different one: a
    truthy [id] of the clause is the requested id. *)
Theorem lookup_returns_what_storage_found L id acc ctx op gqlName w (item : obj) :
  fst (getAccessControlledItem L id acc ctx op gqlName w) = Ret item ->
  (access_is_true acc = true
   /\ findById (adapter L) id (store w) = Ret (Some item))
  \/ (access_is_true acc = false
      /\ (prim_truthy (w_id (access_where acc)) = true -> w_id (access_where acc) = id)
      /\ exists others,
           let c := access_where acc in
           itemsQuery (adapter L)
             (QueryArgs (Some 1)
                (Where id (w_id_not c) (w_id_in c) (w_id_not_in c) (w_other c)) [])
             (store w)
           = Ret (item :: others)).
Proof.
  unfold getAccessControlledItem.
  destruct (access_is_true acc) eqn:Hfull.
  - unfold adapter_findById, storage_read. run.
    destruct (findById (adapter L) id (store w)) as [[found|]|e]; simpl;
      [|discriminate|discriminate].
    intros [= <-]. now left.
  - destruct (excludes_id acc id) eqn:Hexcl; [discriminate|].
    unfold adapter_itemsQuery, storage_read. run.
    match goal with
    | |- context [itemsQuery (adapter L) ?q (store w)] =>
        destruct (itemsQuery (adapter L) q (store w)) as [[|found others]|e] eqn:E
    end; simpl; [discriminate| |discriminate].
    intros [= <-]. right. split; [reflexivity|]. split; [|eauto].
    intros Htruthy. unfold excludes_id in Hexcl.
    rewrite Htruthy in Hexcl. simpl in Hexcl.
    destruct (prim_eqb (w_id (access_where acc)) id) eqn:Heq; [|discriminate].
    unfold prim_eqb in Heq. now apply bool_decide_eq_true in Heq.
Qed.

(** X11. A batch lookup for no id returns the empty array without a storage
    call, whatever the access. A query it sends asks for no id twice and for
    requested ids only. *)
Theorem batch_lookup_asks_once_per_id L (ids : list prim) acc w :
  getAccessControlledItems L [] acc w = (Ret [], w)
  /\ forall q,
       trace (snd (getAccessControlledItems L ids acc w))
       = trace w ++ [Storage (key L) (ItemsQuery q)] ->
       exists l, w_id_in (q_where q) = Some l
                 /\ List.NoDup l /\ forall id, In id l -> In id ids.
Proof.
  split; [reflexivity|]. intros q.
  unfold getAccessControlledItems. destruct ids as [|i ids']; simpl snd.
  - simpl. intros Htrace. apply (f_equal (@length event)) in Htrace.
    rewrite length_app in Htrace. simpl in Htrace. lia.
  - destruct (access_is_true acc).
    + unfold adapter_itemsQuery, storage_read. simpl.
      intros Htrace. apply app_inv_head in Htrace. injection Htrace as <-.
      simpl. eexists. split; [reflexivity|]. split.
      * apply (NoDup_unique (i :: ids')).
      * intros id Hid. now apply (In_unique (i :: ids')) in Hid.
    + destruct (nothing_accessible _ _).
      * simpl. intros Htrace. apply (f_equal (@length event)) in Htrace.
        rewrite length_app in Htrace. simpl in Htrace. lia.
      * unfold adapter_itemsQuery, storage_read. simpl.
        intros Htrace. apply app_inv_head in Htrace. injection Htrace as <-.
        simpl. eexists. split; [reflexivity|].
        unfold idFilters_id_in.
        destruct (prim_truthy _ || bool_decide _).
        -- split; [apply NoDup_unique|].
           intros id Hid. apply In_intersection in Hid as [_ Hid].
           now apply (In_unique (i :: ids')) in Hid.
        -- split; [apply (NoDup_unique (i :: ids'))|].
           intros id Hid. now apply (In_unique (i :: ids')) in Hid.
Qed.

(** X12. The field check lets a write pass exactly when the caller may
    write every declared field that the data of an item to write holds, and
    then changes nothing; keys of the data that are no declared fields are
    not looked at. *)
Theorem checkFieldAccess_passes {S} L op (items : list (option obj * obj)) ctx
    gqlName extra (s : S) :
  checkFieldAccess L op items ctx gqlName extra s = (Ret tt, s)
  <-> forall existingItem data field,
        In (existingItem, data) items -> In field (fields L) ->
        has_key data (path field) = true ->
        getFieldAccessControlForUser ctx (key L) (path field) existingItem op = true.
Proof.
  unfold checkFieldAccess.
  assert (Hempty : restrictedFields L op ctx items = []
                   <-> forall existingItem data field,
                         In (existingItem, data) items -> In field (fields L) ->
                         has_key data (path field) = true ->
                         getFieldAccessControlForUser ctx (key L) (path field)
                           existingItem op = true).
  { rewrite empty_iff_no_member. unfold restrictedFields. split.
    - intros Hnone existingItem data field Hitem Hfield Hkey.
      destruct (getFieldAccessControlForUser ctx (key L) (path field) existingItem op)
        eqn:Hacc; [reflexivity|].
      exfalso. apply (Hnone (path field)). apply in_flat_map.
      exists (existingItem, data). split; [exact Hitem|].
      apply in_map. apply filter_In. split.
      + apply filter_In. auto.
      + now rewrite Hacc.
    - intros Hall p Hp. apply in_flat_map in Hp as ([existingItem data] & Hitem & Hp).
      apply in_map_iff in Hp as (field & <- & Hfield).
      apply filter_In in Hfield as [Hfield Hdenied].
      apply filter_In in Hfield as [Hfield Hkey].
      rewrite (Hall existingItem data field Hitem Hfield Hkey) in Hdenied.
      discriminate. }
  rewrite <- Hempty.
  destruct (restrictedFields L op ctx items) as [|p ps].
  - split; reflexivity.
  - split; discriminate.
Qed.

(** *** Resolving the data of a write *)

Lemma fieldsByPath_some L (k : string) (f : @Field Store) :
  fieldsByPath L k = Some f -> In f (fields L) /\ path f = k.
Proof.
  unfold fieldsByPath. intros Hfind. apply find_some in Hfind as [Hin Heq].
  apply String.eqb_eq in Heq. auto.
Qed.

Lemma fieldsByPath_declared L (f : @Field Store) :
  In f (fields L) -> exists f', fieldsByPath L (path f) = Some f'.
Proof.
  intros Hin. unfold fieldsByPath.
  destruct (find (fun g => String.eqb (path g) (path f)) (fields L)) as [f'|] eqn:E.
  - eauto.
  - apply (find_none _ _ E) in Hin. now rewrite String.eqb_refl in Hin.
Qed.

Lemma In_fieldsFromObject L (o : obj) (f : @Field Store) :
  In f (_fieldsFromObject L o)
  <-> exists k, In k (obj_keys o) /\ fieldsByPath L k = Some f.
Proof.
  unfold _fieldsFromObject. rewrite <- list_elem_of_In, list_elem_of_omap.
  split; intros (k & Hk & Hf); exists k; split; auto; now apply list_elem_of_In.
Qed.

(** When no action threw, there is one result for each field, under its
    path, in the order of the fields. *)
Lemma settle_all_keys {S A} (fs : list (@Field Store))
    (action : @Field Store -> M S A) (s : S) :
  snd (fst (settle_all fs action s)) = [] ->
  map fst (fst (fst (settle_all fs action s))) = map path fs.
Proof.
  revert s. induction fs as [|f fs IH]; intros s; simpl; [reflexivity|].
  destruct (action f s) as [[a|e] s1];
    specialize (IH s1); destruct (settle_all fs action s1) as [[results errors] s2];
    simpl in *.
  - intros Herrors. now rewrite IH.
  - discriminate.
Qed.

Lemma _mapToFields_keys {S A} (fs : list (@Field Store))
    (action : @Field Store -> M S A) (s s' : S) (results : list (string * A)) :
  _mapToFields fs action s = (Ret results, s') -> map fst results = map path fs.
Proof.
  unfold _mapToFields. pose proof (settle_all_keys fs action s) as Hkeys.
  destruct (settle_all fs action s) as [[results' errors] s2]. simpl in Hkeys.
  destruct errors; [|discriminate]. intros [= <- <-]. now apply Hkeys.
Qed.

Lemma _mapToFields_pure {S A} (fs : list (@Field Store)) (g : @Field Store -> A)
    (s : S) :
  _mapToFields fs (fun field => mret (g field)) s
  = (Ret (map (fun field => (path field, g field)) fs), s).
Proof.
  unfold _mapToFields.
  assert (Hall : settle_all fs (fun field => mret (g field)) s
                 = (map (fun field => (path field, g field)) fs, [], s)).
  { induction fs as [|f fs IH]; simpl; [reflexivity|].
    now rewrite IH. }
  now rewrite Hall.
Qed.

Lemma obj_get_by_path (fs : list (@Field Store)) (p : @Field Store -> bool)
    (d : @Field Store -> value) (f : @Field Store) :
  List.NoDup (map path fs) -> In f fs ->
  obj_get (map (fun g => (path g, d g)) (List.filter p fs)) (path f)
  = if p f then d f else VUndefined.
Proof.
  induction fs as [|g fs IH]; simpl; [tauto|].
  intros Hnodup Hin. apply List.NoDup_cons_iff in Hnodup as [Hg Hnodup].
  destruct Hin as [->|Hin].
  - destruct (p f); simpl.
    + now rewrite String.eqb_refl.
    + apply obj_get_absent. destruct (has_key _ (path f)) eqn:Hkey; [|reflexivity].
      apply has_key_In in Hkey. unfold obj_keys in Hkey. rewrite map_map in Hkey.
      simpl in Hkey. apply in_map_iff in Hkey as (h & Hpath & Hh).
      apply filter_In in Hh as [Hh _]. exfalso. apply Hg. rewrite <- Hpath.
      now apply in_map.
  - assert (Hne : String.eqb (path g) (path f) = false).
    { apply String.eqb_neq. intros Heq. apply Hg. rewrite Heq. now apply in_map. }
    destruct (p g); simpl; [rewrite Hne|]; now apply IH.
Qed.

Lemma strict_eq_undefined (v : value) :
  strict_eq v VUndefined = true -> v = VUndefined.
Proof.
  destruct v as [p| |]; simpl; try discriminate.
  unfold prim_eqb. intros Heq. apply bool_decide_eq_true in Heq. now subst.
Qed.

(** X13. [_resolveDefaults] never throws and changes nothing. A key the
    input holds keeps the value of the input, be it [null] or [undefined];
    a declared field the input does not hold gets the default value of the
    field. *)
Theorem _resolveDefaults_fills_gaps {S} L (data : obj) (s : S) :
  List.NoDup (map path (fields L)) -> List.NoDup (obj_keys data) ->
  exists defaulted,
    _resolveDefaults L data s = (Ret defaulted, s)
    /\ (forall k, has_key data k = true -> obj_get defaulted k = obj_get data k)
    /\ (forall field, In field (fields L) -> has_key data (path field) = false ->
          obj_get defaulted (path field) = getDefaultValue field).
Proof.
  intros Hpaths Hkeys. unfold _resolveDefaults.
  unfold mbind at 1, M_bind at 1. rewrite _mapToFields_pure.
  eexists. split; [reflexivity|]. split.
  - intros k Hk. now apply obj_get_spread_present.
  - intros field Hfield Habsent. rewrite obj_get_spread_absent by exact Habsent.
    rewrite (obj_get_by_path _ _ _ _ Hpaths Hfield).
    destruct (strict_eq (getDefaultValue field) VUndefined) eqn:Hdefault; simpl.
    + symmetry. now apply strict_eq_undefined.
    + reflexivity.
Qed.

Lemma call_resolveInput_returns {A} L who
    (hook : context -> hook_args -> outcome A) ctx args (tr : list event) (v : A) :
  hook ctx args = Ret v ->
  call_resolveInput L who hook ctx args tr
  = (Ret v, tr ++ [ResolveInputCall (key L) who args]).
Proof. intros Hret. unfold call_resolveInput, emit. run. now rewrite Hret. Qed.

(** [resolveInput] hooks that return are all run; none makes the call throw. *)
Lemma _mapToFields_resolveInput L (who : string -> participant)
    (hook : @Field Store -> context -> hook_args -> outcome value) ctx args
    (fs : list (@Field Store)) (tr : list event) :
  Forall (fun field => exists v, hook field ctx args = Ret v) fs ->
  exists results,
    _mapToFields fs
      (fun field => call_resolveInput L (who (path field)) (hook field) ctx args) tr
    = (Ret results,
       tr ++ map (fun field => ResolveInputCall (key L) (who (path field)) args) fs).
Proof.
  intros Hreturn. unfold _mapToFields.
  assert (Hall : exists results,
             settle_all fs
               (fun field => call_resolveInput L (who (path field)) (hook field) ctx args)
               tr
             = (results, [],
                tr ++ map (fun field => ResolveInputCall (key L) (who (path field)) args)
                        fs)).
  { revert tr. induction Hreturn as [|f fs [v Hv] _ IH]; intros tr; simpl.
    - eexists. now rewrite app_nil_r.
    - rewrite (call_resolveInput_returns _ _ _ _ _ _ _ Hv).
      destruct (IH (tr ++ [ResolveInputCall (key L) (who (path f)) args]))
        as [results Hresults].
      rewrite Hresults. eexists. now rewrite <- app_assoc. }
  destruct Hall as [results Hall]. rewrite Hall. eauto.
Qed.

Lemma user_resolveInput_returns ctx args (fs : list (@Field Store)) :
  Forall (fun field =>
            forall hook, hooks_resolveInput field = Some hook ->
                         exists v, hook ctx args = Ret v) fs ->
  Forall (fun field =>
            exists v, default (fun _ _ => Ret VUndefined) (hooks_resolveInput field)
                        ctx args = Ret v)
    (List.filter (fun field => bool_decide (is_Some (hooks_resolveInput field))) fs).
Proof.
  intros Hreturn. apply List.Forall_forall. intros field Hfield.
  apply filter_In in Hfield as [Hfield Hsome].
  apply bool_decide_eq_true in Hsome as [hook Hhook].
  rewrite List.Forall_forall in Hreturn.
  rewrite Hhook. simpl. now apply (Hreturn field Hfield).
Qed.

(** X14. When the list declares a [resolveInput] hook and no field hook
    throws, what [_resolveInput] returns or throws is what the list hook
    returns or throws, and nothing of what the field hooks resolved; the
    list hook is called with the data as it was when [_resolveInput] was
    entered. *)
Theorem list_resolveInput_has_last_word L (resolvedData : obj)
    (existingItem : option obj) ctx op (originalInput : value) (tr : list event)
    (hook : context -> hook_args -> outcome obj) :
  let args := HookArgs (Some resolvedData) existingItem originalInput None in
  list_resolveInput L = Some hook ->
  resolveInput_does_not_throw ctx args (_fieldsFromObject L resolvedData) ->
  fst (_resolveInput L resolvedData existingItem ctx op originalInput tr)
  = hook ctx args.
Proof.
  intros args Hhook [Hbuiltin Huser]. unfold _resolveInput. fold args.
  destruct (_mapToFields_resolveInput L FieldBuiltin resolveInput ctx args _ tr Hbuiltin)
    as [results Hresults].
  unfold mbind at 1, M_bind at 1. rewrite Hresults.
  destruct (_mapToFields_resolveInput L FieldHook
              (fun field => default (fun _ _ => Ret VUndefined) (hooks_resolveInput field))
              ctx args _
              (tr ++ map (fun field => ResolveInputCall (key L) (FieldBuiltin (path field))
                                         args)
                     (_fieldsFromObject L resolvedData))
              (user_resolveInput_returns ctx args _ Huser))
    as [overrides Hoverrides].
  unfold mbind at 1, M_bind at 1. rewrite Hoverrides.
  rewrite Hhook. unfold call_resolveInput, emit. run.
  now destruct (hook ctx args).
Qed.

(** X15. Without a list hook, the data [_resolveInput] returns holds
    exactly the keys of the data it was given that are paths of declared
    fields: what is no declared field goes no further. *)
Theorem _resolveInput_keeps_declared_fields L (resolvedData : obj)
    (existingItem : option obj) ctx op (originalInput : value)
    (tr tr' : list event) (resolved : obj) :
  list_resolveInput L = None ->
  _resolveInput L resolvedData existingItem ctx op originalInput tr
  = (Ret resolved, tr') ->
  forall k, has_key resolved k = true
            <-> has_key resolvedData k = true
                /\ exists field, In field (fields L) /\ path field = k.
Proof.
  intros Hnone. unfold _resolveInput. rewrite Hnone.
  unfold mbind at 1, M_bind at 1.
  destruct (_mapToFields (_fieldsFromObject L resolvedData) _ tr)
    as [[results|e] tr1] eqn:Hresults; [|discriminate].
  unfold mbind at 1, M_bind at 1.
  destruct (_mapToFields (List.filter _ (_fieldsFromObject L resolvedData)) _ tr1)
    as [[overrides|e] tr2] eqn:Hoverrides; [|discriminate].
  intros [= <- <-] k.
  apply _mapToFields_keys in Hresults. apply _mapToFields_keys in Hoverrides.
  rewrite has_key_spread, orb_true_iff, !has_key_In.
  unfold obj_keys at 1 2. rewrite Hresults, Hoverrides.
  split.
  - intros Hk.
    assert (Hin : In k (map path (_fieldsFromObject L resolvedData))).
    { destruct Hk as [Hk|Hk]; [exact Hk|].
      apply in_map_iff in Hk as (f & Hpath & Hf). apply filter_In in Hf as [Hf _].
      apply in_map_iff. eauto. }
    apply in_map_iff in Hin as (f & <- & Hf).
    apply In_fieldsFromObject in Hf as (k & Hk' & Hfind).
    apply fieldsByPath_some in Hfind as [Hfield <-]. eauto.
  - intros [Hk (f & Hf & <-)]. left.
    destruct (fieldsByPath_declared L f Hf) as [f' Hfind].
    apply in_map_iff. exists f'. split.
    + now apply fieldsByPath_some in Hfind.
    + apply In_fieldsFromObject. eauto.
Qed.

(** X16. Relationship resolution leaves alone what is no relationship: a
    key that is not the path of a relationship field has in the result the
    value (and the presence) it has in the data; and data that holds no
    relationship field is returned as it is, with the world untouched. *)
Theorem _resolveRelationship_keeps_other_fields L (data : obj)
    (existingItem : option obj) ctx (getItem : option nat) (ms : nat) w :
  (forall resolved w',
      _resolveRelationship L data existingItem ctx getItem ms w = (Ret resolved, w') ->
      forall k,
        (forall field, fieldsByPath L k = Some field -> isRelationship field = false) ->
        obj_get resolved k = obj_get data k /\ has_key resolved k = has_key data k)
  /\ ((forall k field, In k (obj_keys data) -> fieldsByPath L k = Some field ->
                       isRelationship field = false) ->
      _resolveRelationship L data existingItem ctx getItem ms w = (Ret data, w)).
Proof.
  split.
  - intros resolved w'. unfold _resolveRelationship.
    unfold mbind at 1, M_bind at 1.
    destruct (_mapToFields _ _ w) as [[results|e] w1] eqn:Hresults; [|discriminate].
    intros [= <- <-] k Hplain.
    apply _mapToFields_keys in Hresults.
    assert (Habsent : has_key results k = false).
    { destruct (has_key results k) eqn:Hkey; [|reflexivity].
      apply has_key_In in Hkey. unfold obj_keys in Hkey. rewrite Hresults in Hkey.
      apply in_map_iff in Hkey as (f & <- & Hf).
      apply filter_In in Hf as [Hf Hrel].
      apply In_fieldsFromObject in Hf as (k & _ & Hfind).
      pose proof (fieldsByPath_some _ _ _ Hfind) as [_ <-].
      rewrite (Hplain f Hfind) in Hrel. discriminate. }
    split.
    + now apply obj_get_spread_absent.
    + now rewrite has_key_spread, Habsent, orb_false_r.
  - intros Hplain. unfold _resolveRelationship.
    assert (Hnone : List.filter isRelationship (_fieldsFromObject L data) = []).
    { apply empty_iff_no_member. intros f Hf. apply filter_In in Hf as [Hf Hrel].
      apply In_fieldsFromObject in Hf as (k & Hk & Hfind).
      rewrite (Hplain k f Hk Hfind) in Hrel. discriminate. }
    now rewrite Hnone.
Qed.

(** X17. A hook phase of a write runs, for the fields found for the keys
    of the object, first every built-in implementation, then every user hook
    of a field, then the hook of the list; when none of them throws the
    phase returns, whatever validation errors they may have tried to add. *)
Theorem _runHook_order L ctx args (fieldObject : obj) hookName (tr : list event) :
  fields_do_not_throw ctx args (_fieldsFromObject L fieldObject) hookName ->
  (forall hook, list_hooks L hookName = Some hook -> thrown (hook ctx args) = None) ->
  _runHook L ctx args (Some fieldObject) hookName tr
  = (Ret tt,
     tr ++ field_hook_events L args (_fieldsFromObject L fieldObject) hookName
        ++ list_hook_event L args hookName).
Proof.
  intros [Hbuiltin Huser] Hlist. unfold _runHook.
  unfold mbind at 1, M_bind at 1.
  rewrite (_mapToFields_hooks L hookName FieldBuiltin
             (fun field => method field hookName) ctx args _ tr Hbuiltin).
  unfold mbind at 1, M_bind at 1.
  rewrite (_mapToFields_hooks L hookName FieldHook
             (fun field => user_hook hookName field) ctx args _ _ Huser).
  unfold field_hook_events, list_hook_event.
  destruct (list_hooks L hookName) as [hook|].
  - unfold mbind, M_bind.
    rewrite (call_hook_quiet _ _ _ _ _ _ _ (Hlist hook eq_refl)).
    unfold mret, M_ret. now rewrite <- !app_assoc.
  - unfold mret, M_ret. now rewrite app_nil_r, <- app_assoc.
Qed.

(** *** When an after-change callback throws *)

Lemma set_stack_twice (r : nat) (s1 s2 : list after_hook) w :
  set_stack r s1 (set_stack r s2 w) = set_stack r s1 w.
Proof.
  unfold set_stack, set_mutationStates. simpl. f_equal.
  rewrite list_alter_alter_eq. now apply list_alter_ext.
Qed.

(** The loop of the root stops at the first callback that throws; the
    callbacks below it stay on the stack. *)
Lemma drain_stops (r : nat) (below : list after_hook) (h : after_hook)
    (above : list after_hook) :
  forall w ms (tr1 tr2 : list event) e (n : nat),
    mutationStates w !! r = Some ms ->
    afterChangeStack ms = below ++ h :: above ->
    run_afterHooks (rev above) (trace w) = (Ret tt, tr1) ->
    h tt tr1 = (Throw e, tr2) ->
    length above < n ->
    drain r n w = (Throw e, set_trace (set_stack r below w) tr2).
Proof.
  induction above as [|a above IH] using rev_ind;
    intros w ms tr1 tr2 e n Hms Hstack Hrun Hthrow Hn;
    (destruct n as [|n]; [simpl in Hn; lia|]); simpl drain.
  - simpl in Hrun. injection Hrun as <-.
    unfold mbind at 1, M_bind at 1. unfold pop_afterHook.
    assert (Hpending : stack_of r w = below ++ [h]).
    { unfold stack_of. now rewrite Hms. }
    rewrite Hpending, last_snoc, removelast_last.
    unfold mbind at 1, M_bind at 1. unfold in_trace at 1.
    change (trace (set_stack r below w)) with (trace w). now rewrite Hthrow.
  - rewrite rev_unit in Hrun. simpl in Hrun.
    unfold mbind at 1, M_bind at 1 in Hrun.
    destruct (a tt (trace w)) as [[[]|e'] tr0] eqn:Ha; [|discriminate].
    unfold mbind at 1, M_bind at 1. unfold pop_afterHook.
    assert (Hpending : stack_of r w = (below ++ h :: above) ++ [a]).
    { unfold stack_of. rewrite Hms, Hstack. now rewrite <- app_assoc. }
    rewrite Hpending, last_snoc, removelast_last.
    unfold mbind at 1, M_bind at 1. unfold in_trace at 1.
    change (trace (set_stack r (below ++ h :: above) w)) with (trace w). rewrite Ha.
    rewrite (IH (set_trace (set_stack r (below ++ h :: above) w) tr0)
               (MutationState (below ++ h :: above) (queues ms) (transaction ms))
               tr1 tr2 e n).
    + now rewrite set_stack_set_stack.
    + change (mutationStates (set_trace (set_stack r (below ++ h :: above) w) tr0))
        with (mutationStates (set_stack r (below ++ h :: above) w)).
      now apply lookup_set_stack.
    + reflexivity.
    + exact Hrun.
    + exact Hthrow.
    + rewrite length_app in Hn. simpl in Hn. lia.
Qed.

(** X18. When an after-change callback throws while the root drains the
    stack, the root mutation throws that error instead of returning its
    result; the callbacks pushed after it have run, the ones pushed before it
    never run and stay on the stack. *)
Theorem root_hook_failure_stops_the_drain {A} ctx
    (mutation : nat -> M (@world Store) (A * after_hook)) w
    (result : A) (afterHook : after_hook) w2 w3
    (nested : list after_hook) (q t : obj)
    (below : list after_hook) (h : after_hook) (above : list after_hook)
    (tr1 tr2 : list event) e :
  let r := length (mutationStates w) in
  mutation r (snd (enter None w)) = (Ret (result, afterHook), w2) ->
  resolveBacklinks ctx r w2 = (Ret tt, w3) ->
  mutationStates w3 !! r = Some (MutationState nested q t) ->
  nested ++ [afterHook] = below ++ h :: above ->
  run_afterHooks (rev above) (trace w3) = (Ret tt, tr1) ->
  h tt tr1 = (Throw e, tr2) ->
  _nestedMutation resolveBacklinks None ctx mutation w
  = (Throw e, set_trace (set_stack r below w3) tr2).
Proof.
  intros r Hmutation Hbacklinks Hstack Hsplit Hrun Hthrow.
  unfold _nestedMutation, new_mutationState. run. fold r.
  rewrite Hmutation. simpl. rewrite Hbacklinks.
  assert (Hpushed : stack_of r w3 = nested).
  { unfold stack_of. now rewrite Hstack. }
  unfold push_afterHook. rewrite Hpushed.
  rewrite (stack_of_set_stack _ _ _ _ Hstack).
  rewrite (drain_stops r below h above
             (set_stack r (nested ++ [afterHook]) w3)
             (MutationState (nested ++ [afterHook]) q t) tr1 tr2 e
             (length (nested ++ [afterHook]))).
  - now rewrite set_stack_twice.
  - now apply (lookup_set_stack _ _ _ _ Hstack).
  - exact Hsplit.
  - exact Hrun.
  - exact Hthrow.
  - rewrite Hsplit, length_app. simpl. lia.
Qed.

(** [_updateSingle] is [_nestedMutation] over the steps named above. *)
Lemma _updateSingle_steps L (id : prim) (data : obj) (existingItem : option obj)
    ctx ms w :
  _updateSingle resolveBacklinks L id data existingItem ctx ms w
  = _nestedMutation resolveBacklinks ms ctx
      (update_mutation L id data existingItem ctx) w.
Proof.
  unfold _updateSingle. apply _nestedMutation_ext. intros r w'.
  unfold update_mutation, update_prepared, update_afterHook.
  unfold mbind, M_bind, mret, M_ret.
  repeat (step; try reflexivity).
Qed.

(** X19. When the storage answers an update with [null] (the item is not
    there any more), a root update does not return [null]: its after-change
    callback throws a [TypeError] on the missing item, after the storage was
    called, and the callbacks of the nested writes never run. *)
Theorem update_of_vanished_item_throws L (id : prim) (data : obj)
    (existingItem : option obj) ctx w (resolvedData : obj) w2 (st : Store) w3
    (nested : list after_hook) (q t : obj) :
  let r := length (mutationStates w) in
  update_prepared L data existingItem ctx r (snd (enter None w))
  = (Ret resolvedData, w2) ->
  update (adapter L) id resolvedData (store w2) = (Ret None, st) ->
  resolveBacklinks ctx r
    (log (Storage (key L) (UpdateItem id resolvedData)) (set_store w2 st))
  = (Ret tt, w3) ->
  mutationStates w3 !! r = Some (MutationState nested q t) ->
  _updateSingle resolveBacklinks L id data existingItem ctx None w
  = (Throw (TypeError "Cannot convert undefined or null to object"), w3).
Proof.
  intros r Hprepared Hupdate Hbacklinks Hstack.
  rewrite _updateSingle_steps.
  assert (Hbody : update_mutation L id data existingItem ctx r
                    (snd (enter None w))
                  = (Ret (None, update_afterHook L None existingItem ctx),
                     log (Storage (key L) (UpdateItem id resolvedData))
                       (set_store w2 st))).
  { unfold update_mutation. unfold mbind at 1, M_bind at 1. rewrite Hprepared.
    unfold adapter_update, storage_write. run. now rewrite Hupdate. }
  unfold _nestedMutation, new_mutationState. run. fold r.
  rewrite Hbody. simpl. rewrite Hbacklinks.
  assert (Hpushed : stack_of r w3 = nested).
  { unfold stack_of. now rewrite Hstack. }
  unfold push_afterHook. rewrite Hpushed.
  rewrite (stack_of_set_stack _ _ _ _ Hstack).
  rewrite (drain_stops r nested (update_afterHook L None existingItem ctx) []
             (set_stack r (nested ++ [update_afterHook L None existingItem ctx]) w3)
             (MutationState (nested ++ [update_afterHook L None existingItem ctx]) q t)
             (trace w3) (trace w3)
             (TypeError "Cannot convert undefined or null to object")
             (length (nested ++ [update_afterHook L None existingItem ctx]))).
  - rewrite set_stack_twice.
    replace (set_stack r nested w3) with w3.
    + now destruct w3.
    + symmetry. apply (set_stack_same r w3 (MutationState nested q t) Hstack).
  - now apply (lookup_set_stack _ _ _ _ Hstack).
  - reflexivity.
  - reflexivity.
  - reflexivity.
  - rewrite length_app. simpl. lia.
Qed.

(** *** Deleting, batches, and partial updates *)

(** X20. A delete that the field participants of [validateDelete] refuse
    throws one [ValidationFailureError] with all their messages; the
    [beforeDelete] hooks do not run and the storage is not asked to delete. *)
Theorem refused_delete_never_reaches_storage L (existingItem : obj) ctx ms w w1 :
  let args := HookArgs None (Some existingItem) VUndefined None in
  _registerBacklinks L existingItem (fst (enter ms w)) (snd (enter ms w))
  = (Ret tt, w1) ->
  fields_do_not_throw ctx args (fields L) validateDelete ->
  field_validation_errors ctx args (fields L) validateDelete <> [] ->
  _deleteSingle resolveBacklinks L existingItem ctx ms w
  = (Throw (validation_failure L
              (field_validation_errors ctx args (fields L) validateDelete)
              Delete VUndefined),
     set_trace w1 (trace w1 ++ field_hook_events L args (fields L) validateDelete)).
Proof.
  intros args Hbacklinks Hquiet Herrors.
  unfold _deleteSingle, _nestedMutation.
  assert (Hbody :
            (_registerBacklinks L existingItem (fst (enter ms w));;
             in_trace (_validateDelete L existingItem ctx Delete);;
             in_trace (_beforeDelete L existingItem ctx);;
             result ← adapter_delete L (obj_get existingItem "id");
             mret (result, fun _ : unit => _afterDelete L existingItem ctx))
              (snd (enter ms w))
            = (Throw (validation_failure L
                        (field_validation_errors ctx args (fields L) validateDelete)
                        Delete VUndefined),
               set_trace w1
                 (trace w1 ++ field_hook_events L args (fields L) validateDelete))).
  { unfold mbind at 1, M_bind at 1. rewrite Hbacklinks.
    unfold mbind at 1, M_bind at 1. unfold in_trace at 1, _validateDelete.
    fold args.
    rewrite (_validateHook_groups L ctx args (fields L) Delete validateDelete
               (trace w1) Hquiet).
    destruct (field_validation_errors ctx args (fields L) validateDelete);
      [congruence | reflexivity]. }
  destruct ms as [r|]; run; now rewrite Hbody.
Qed.

(** X21. A batch create of no item and a batch delete of no id return the
    empty array and leave the world as it was, once the list rule allows the
    operation: no storage call, no hook, no mutation state. *)
Theorem empty_batches_do_nothing L ctx ms w :
  (access_truthy (getListAccessControlForUser ctx (key L) Create) = true ->
   createManyMutation resolveBacklinks L [] ctx ms w = (Ret [], w))
  /\ (access_truthy (getListAccessControlForUser ctx (key L) Delete) = true ->
      deleteManyMutation resolveBacklinks L [] ctx ms w = (Ret [], w)).
Proof.
  split; intros Hok.
  - unfold createManyMutation. unfold mbind at 1, M_bind at 1.
    now rewrite (checkListAccess_allowed _ _ _ _ _ _ Hok).
  - unfold deleteManyMutation. unfold mbind at 1, M_bind at 1.
    now rewrite (checkListAccess_allowed _ _ _ _ _ _ Hok).
Qed.

(** X22. On an update the required check looks only at the required
    fields the data mentions: when none of those is null or undefined the
    check passes and the validation hooks decide, however many required
    fields the data leaves out; a required field that the data sets to null
    or undefined is refused, with its message, before any hook runs. *)
Theorem update_checks_mentioned_required_fields L (resolvedData : obj)
    (existingItem : option obj) ctx (originalInput : value) (tr : list event) :
  let args := HookArgs (Some resolvedData) existingItem originalInput None in
  ((forall field, In field (fields L) ->
       isRequired field = true -> isRelationship field = false ->
       has_key resolvedData (path field) = true ->
       is_nullish (obj_get resolvedData (path field)) = false) ->
   _validateInput L resolvedData existingItem ctx Update originalInput tr
   = _validateHook L ctx args (_fieldsFromObject L resolvedData) Update
       validateInput tr)
  /\ (forall field, In field (fields L) ->
        isRequired field = true -> isRelationship field = false ->
        has_key resolvedData (path field) = true ->
        is_nullish (obj_get resolvedData (path field)) = true ->
        exists errors,
          _validateInput L resolvedData existingItem ctx Update originalInput tr
          = (Throw (validation_failure L errors Update originalInput), tr)
          /\ In (required_message (path field)) (map msg errors)).
Proof.
  intros args. split.
  - intros Hfine. unfold _validateInput.
    assert (Hnone : List.filter (required_but_missing Update resolvedData) (fields L)
                    = []).
    { apply empty_iff_no_member. intros f Hf. apply filter_In in Hf as [Hf Hmissing].
      unfold required_but_missing in Hmissing.
      apply andb_true_iff in Hmissing as [Hmissing Hnull].
      apply andb_true_iff in Hmissing as [Hrequired Hplain].
      apply andb_true_iff in Hnull as [Hkey Hnull].
      apply negb_true_iff in Hplain.
      rewrite (Hfine f Hf Hrequired Hplain Hkey) in Hnull. discriminate. }
    now rewrite Hnone.
  - intros field Hfield Hrequired Hplain Hkey Hnull. unfold _validateInput.
    assert (Hin : In field (List.filter (required_but_missing Update resolvedData)
                              (fields L))).
    { apply filter_In. split; [exact Hfield|].
      unfold required_but_missing. now rewrite Hrequired, Hplain, Hkey, Hnull. }
    destruct (List.filter (required_but_missing Update resolvedData) (fields L))
      as [|f missing] eqn:Hmissing; [contradiction|].
    exists (map (required_error Update resolvedData originalInput) (f :: missing)).
    split; [reflexivity|].
    rewrite map_map. apply in_map_iff. exists field. split; [reflexivity | exact Hin].
Qed.

(** *** Names *)

(** X23. The meta name of a list is its query name between an underscore
    and [Meta], with the underscore left out when the query name brings one
    itself; it begins with two underscores only when the query name does. *)
Theorem listMetaName_underscores (q : string) :
  listMetaName q
  = (if String.prefix "_" q then (q ++ "Meta")%string
     else ("_" ++ q ++ "Meta")%string)
  /\ String.prefix "__" (listMetaName q) = String.prefix "__" q.
Proof.
  assert (Hempty : forall s, String.prefix "" s = true) by now intros [|].
  unfold listMetaName, preventInvalidUnderscorePrefix.
  destruct q as [|c q]; [split; reflexivity|].
  change ("_" ++ String c q ++ "Meta")%string
    with (String "_" (String c (q ++ "Meta")%string)).
  cbv beta iota. change (Ascii.eqb "_" "_") with true. cbn [andb].
  change (String.prefix "_" (String c q))
    with (if Ascii.ascii_dec "_" c then String.prefix "" q else false).
  change (String.prefix "__" (String c q))
    with (if Ascii.ascii_dec "_" c then String.prefix "_" q else false).
  destruct (Ascii.ascii_dec "_" c) as [<-|Hc].
  - rewrite Ascii.eqb_refl, Hempty. split; [reflexivity|].
    destruct q as [|c' q]; [reflexivity|].
    change (String.prefix "__" (String "_" (String c' q ++ "Meta")))
      with (if Ascii.ascii_dec "_" c' then String.prefix "" (q ++ "Meta") else false).
    change (String.prefix "_" (String c' q))
      with (if Ascii.ascii_dec "_" c' then String.prefix "" q else false).
    now rewrite !Hempty.
  - assert (Hneq : Ascii.eqb c "_" = false).
    { apply Ascii.eqb_neq. congruence. }
    rewrite Hneq. split; [reflexivity|].
    change (String.prefix "__" (String "_" (String c (q ++ "Meta"))))
      with (if Ascii.ascii_dec "_" c then String.prefix "" (q ++ "Meta") else false).
    destruct (Ascii.ascii_dec "_" c); [contradiction | reflexivity].
Qed.

Lemma promise_all_length {S A B} (f : A -> M S B) (xs : list A) (s s' : S)
    (bs : list B) :
  promise_all f xs s = (Ret bs, s') -> length bs = length xs.
Proof.
  revert s s' bs. induction xs as [|x xs IH]; intros s s' bs; simpl.
  - now intros [= <- <-].
  - destruct (f x s) as [[b|e] s1]; [|discriminate].
    destruct (promise_all f xs s1) as [[bs'|e] s2] eqn:Hrest; [|discriminate].
    intros [= <- <-]. simpl. f_equal. now apply (IH s1 s2).
Qed.

(** X24. A batch create that returns gives one item for each input. *)
Theorem createManyMutation_one_item_per_input L (data : list obj) ctx ms w w'
    (items : list obj) :
  createManyMutation resolveBacklinks L data ctx ms w = (Ret items, w') ->
  length items = length data.
Proof.
  unfold createManyMutation.
  unfold mbind at 1, M_bind at 1.
  destruct (checkListAccess L ctx Create _ [] w) as [[acc|e] w1]; [|discriminate].
  unfold mbind at 1, M_bind at 1.
  destruct (checkFieldAccess L Create _ ctx _ [] w1) as [[[]|e] w2]; [|discriminate].
  apply promise_all_length.
Qed.

End Facts.

(** *** The demo project *)

Import Demo.


(** User 1 is looked up by somebody who may see the users named Marge only:
    once in a world without any user, once in a world where user 1 is Lisa.
    The caller gets the same error. *)
Lemma getAccessControlledItem_denied_witness :
  let marge := getListAccessControlForUser marges_only "User" Delete in
  fst (getAccessControlledItem User (PNum 1) marge marges_only Delete
         (Some "deleteUser") empty_world)
  = Throw (access_denied Delete marges_only (Some "deleteUser")
             [("itemId", VPrim (PNum 1))])
  /\ fst (getAccessControlledItem User (PNum 1) marge marges_only Delete
            (Some "deleteUser") family)
     = Throw (access_denied Delete marges_only (Some "deleteUser")
                [("itemId", VPrim (PNum 1))]).
Proof.
  split.
  - apply (getAccessControlledItem_denied User (PNum 1) _ marges_only Delete
             (Some "deleteUser") empty_world).
    right. right. repeat split; reflexivity.
  - apply (getAccessControlledItem_denied User (PNum 1) _ marges_only Delete
             (Some "deleteUser") family).
    right. right. repeat split; reflexivity.
Defined.

(** Users 1, 2 and 3 are asked for by somebody who may not see user 2. One
    query is sent: it asks for the three of them and names user 2, and not
    user 1, as disallowed. Asked for user 2 alone, the lookup returns the
    empty array and sends nothing. *)
Lemma getAccessControlledItems_narrows_witness :
  let c := Where PUndefined PUndefined None (Some [PNum 2]) [] in
  getAccessControlledItems User [PNum 2] (AccessWhere c) family = (Ret [], family)
  /\ exists q l_in l_out,
       trace (snd (getAccessControlledItems User [PNum 1; PNum 2; PNum 3]
                     (AccessWhere c) family))
       = [Storage "User" (ItemsQuery q)]
       /\ w_id_in (q_where q) = Some l_in
       /\ In (PNum 1) l_in /\ In (PNum 2) l_in /\ In (PNum 3) l_in
       /\ w_id_not_in (q_where q) = Some l_out
       /\ In (PNum 2) l_out /\ ~ In (PNum 1) l_out.
Proof.
  intros c.
  assert (Hnone : ~ names_allowed_ids c).
  { intros [H|[l H]]; discriminate. }
  assert (Hsome : names_disallowed_ids c).
  { right. eexists. reflexivity. }
  split.
  - apply (proj1 (getAccessControlledItems_narrows User [PNum 2] c family)).
    right. split; [exact Hsome|].
    intros id [<-|[]]. split; [reflexivity|]. right. eexists. split; [reflexivity|].
    now left.
  - destruct (proj2 (getAccessControlledItems_narrows User
                       [PNum 1; PNum 2; PNum 3] c family))
      as (q & l_in & Hrun & _ & _ & _ & _ & _ & Hin & _ & Hl_in & Hout).
    + discriminate.
    + intros [[H _] | [_ H]]; [contradiction|].
      destruct (H (PNum 1) (or_introl eq_refl))
        as [_ [H1|(l & [= <-] & [H1|[]])]]; discriminate.
    + destruct (w_id_not_in (q_where q)) as [l_out|] eqn:Hnot_in; [|contradiction].
      destruct Hout as (_ & _ & Hl_out).
      exists q, l_in, l_out. rewrite Hrun. split; [reflexivity|].
      split; [exact Hin|].
      split; [apply Hl_in; split; [now left | contradiction]|].
      split; [apply Hl_in; split; [right; now left | contradiction]|].
      split; [apply Hl_in; split; [right; right; now left | contradiction]|].
      split; [exact Hnot_in|]. split.
      * apply Hl_out. split; [right; now left|].
        split; [reflexivity|]. right. eexists. split; [reflexivity | now left].
      * intros H. apply Hl_out in H as [_ [_ [H|(l & [= <-] & [H|[]])]]];
          discriminate.
Defined.

(** An editor may not write [isAdmin]: the update of user 1 is refused
    after the user was read, and nothing was written. *)
Lemma denied_field_aborts_write_witness :
  updateMutation resolveBacklinks User (PNum 1) [("isAdmin", VPrim (PBool true))]
    editor None family
  = (Throw (field_access_denied Update editor (Some "updateUser")
              [("itemId", VPrim (PNum 1))] ["isAdmin"]),
     log (Storage "User" (FindById (PNum 1))) family).
Proof.
  apply (proj1 (proj2 (proj2 (denied_field_aborts_write resolveBacklinks zipObj
                                User editor family)))
           (PNum 1) [("isAdmin", VPrim (PBool true))] None lisa
           (log (Storage "User" (FindById (PNum 1))) family)).
  - reflexivity.
  - reflexivity.
  - discriminate.
Defined.

(** Homer's name is too short for the field hook: that is the one failure
    raised. *)
Lemma _validateInput_raises_first_group_witness :
  _validateInput User homer None anyone Create (VObj homer) []
  = (Throw (validation_failure User
              [ValidationError "Name is too short" (VObj []) (VObj [])]
              Create (VObj homer)),
     field_hook_events User (HookArgs (Some homer) None (VObj homer) None)
       (_fieldsFromObject User homer) validateInput).
Proof.
  rewrite (_validateInput_raises_first_group User homer None anyone Create
             (VObj homer) []).
  - reflexivity.
  - split; repeat constructor.
Defined.

(** A post is created together with its author: the hook of the post runs
    first, the hook of the author after it, and both have run when the call
    returns. *)
Lemma root_mutation_runs_own_hook_first_witness :
  afterChange_order
    (trace (snd (_nestedMutation resolveBacklinks None anyone
                   (create_mutation Post lisas_post None anyone) empty_world)))
  = ["Post"; "User"].
Proof.
  erewrite (root_mutation_runs_own_hook_first resolveBacklinks anyone
              (create_mutation Post lisas_post None anyone) empty_world);
    cycle 1.
  - lazy. reflexivity.
  - lazy. reflexivity.
  - lazy. reflexivity.
  - lazy. reflexivity.
  - reflexivity.
Defined.

(** The disk is full: the create throws the storage error, its handle is
    rejected with it, and no after-change callback is on the stack. On a
    disk with room the handle of the create ends resolved with the stored
    author. *)
Lemma create_persist_settles_handle_witness :
  let r := _createSingle resolveBacklinks BrokenUser lisa_input None anyone None
             empty_world in
  let ok := _createSingle resolveBacklinks Author lisa_input None anyone None
              empty_world in
  fst r = Throw disk_full
  /\ deferreds (snd r) = [Rejected disk_full]
  /\ stack_of 0 (snd r) = []
  /\ deferreds (snd ok) !! 0 = Some (Resolved lisa).
Proof.
  pose proof (create_persist_settles_handle resolveBacklinks BrokenUser lisa_input
                None anyone None empty_world 0 lisa_input
                (snd (create_prepared BrokenUser lisa_input None anyone 0
                        (snd (enter None empty_world))))
                eq_refl eq_refl) as H.
  pose proof (create_persist_settles_handle resolveBacklinks Author lisa_input
                None anyone None empty_world 0 lisa_input
                (snd (create_prepared Author lisa_input None anyone 0
                        (snd (enter None empty_world))))
                eq_refl eq_refl) as Hok.
  simpl in H. destruct H as (Hrun & _).
  simpl in Hok. destruct (Hok (fun w' => eq_refl)) as (Hresolved & _).
  intros r ok. subst r ok. rewrite Hrun.
  split; [reflexivity|]. split; [reflexivity|]. split; [reflexivity|].
  exact Hresolved.
Defined.

(** A user needs a name and an email; Marjorie gives no email: one message,
    about the email, and no user is stored. *)
Lemma missing_required_field_fails_create_witness :
  let r := _createSingle resolveBacklinks User marjorie None anyone None empty_world in
  (exists errors internal,
      fst r = Throw (ValidationFailureError
                       (ValidationFailureData [required_message "email"] errors
                          "User" Create)
                       internal (VObj marjorie)))
  /\ store (snd r) = ([], []).
Proof.
  pose proof (missing_required_field_fails_create resolveBacklinks User marjorie
                None anyone None empty_world 0 marjorie
                (snd (create_resolved User marjorie None anyone 0
                        (snd (enter None empty_world))))
                eq_refl) as H.
  intros r. subst r. rewrite H by discriminate.
  split; [|reflexivity]. eexists. eexists. reflexivity.
Defined.

(** *** The further properties, on the demo project *)

(** Whoever may see every user but user 2 asks for user 2: refused, and the
    storage was not asked. *)
Lemma lookup_reads_at_most_once_witness :
  getAccessControlledItem User (PNum 2)
    (getListAccessControlForUser all_but_two "User" Update) all_but_two Update
    (Some "updateUser") family
  = (Throw (access_denied Update all_but_two (Some "updateUser")
              [("itemId", VPrim (PNum 2))]), family).
Proof.
  apply (proj2 (lookup_reads_at_most_once User (PNum 2)
                  (getListAccessControlForUser all_but_two "User" Update)
                  all_but_two Update (Some "updateUser") family));
    reflexivity.
Defined.

(** Under full access user 1 is looked up with [findById], which finds
    Lisa. *)
Lemma lookup_returns_what_storage_found_witness :
  (access_is_true (AccessBool true) = true
   /\ findById (adapter User) (PNum 1) (store family) = Ret (Some lisa))
  \/ (access_is_true (AccessBool true) = false
      /\ (prim_truthy (w_id (access_where (AccessBool true))) = true ->
          w_id (access_where (AccessBool true)) = PNum 1)
      /\ exists others,
           let c := access_where (AccessBool true) in
           itemsQuery (adapter User)
             (QueryArgs (Some 1)
                (Where (PNum 1) (w_id_not c) (w_id_in c) (w_id_not_in c) (w_other c))
                [])
             (store family)
           = Ret (lisa :: others)).
Proof.
  exact (lookup_returns_what_storage_found User (PNum 1) (AccessBool true) anyone
           Read None family lisa eq_refl).
Defined.

(** Users 1, 1 and 2 are asked for: the query names each of them once. *)
Lemma batch_lookup_asks_once_per_id_witness :
  let c := Where PUndefined PUndefined None (Some [PNum 2]) [] in
  exists q l,
    trace (snd (getAccessControlledItems User [PNum 1; PNum 1; PNum 2]
                  (AccessWhere c) family))
    = [Storage "User" (ItemsQuery q)]
    /\ w_id_in (q_where q) = Some l
    /\ List.NoDup l /\ forall id, In id l -> In id [PNum 1; PNum 1; PNum 2].
Proof.
  intros c.
  pose (q := QueryArgs None
              (Where PUndefined PUndefined (Some [PNum 1; PNum 2]) (Some [PNum 2]) [])
              []).
  destruct (proj2 (batch_lookup_asks_once_per_id User [PNum 1; PNum 1; PNum 2]
                     (AccessWhere c) family) q eq_refl) as (l & Hl & Hnodup & Hin).
  exists q, l. repeat split; assumption.
Defined.

(** An editor may write the name of Lisa. *)
Lemma checkFieldAccess_passes_witness :
  checkFieldAccess User Update [(Some lisa, marjorie)] editor (Some "updateUser")
    [] family
  = (Ret tt, family).
Proof.
  apply (proj2 (checkFieldAccess_passes User Update [(Some lisa, marjorie)] editor
                  (Some "updateUser") [] family)).
  intros existingItem data field [[= <- <-]|[]] [<-|[<-|[<-|[]]]] Hkey;
    first [reflexivity | discriminate].
Defined.

(** A post without a status gets the default status and keeps its title. *)
Lemma _resolveDefaults_fills_gaps_witness :
  exists defaulted,
    _resolveDefaults Post untitled family = (Ret defaulted, family)
    /\ obj_get defaulted "title" = VStr "Hi"
    /\ obj_get defaulted "status" = VStr "draft".
Proof.
  destruct (_resolveDefaults_fills_gaps Post untitled family)
    as (defaulted & Hrun & Hkept & Hfilled).
  - repeat constructor; simpl; intuition discriminate.
  - repeat constructor; simpl; intuition discriminate.
  - exists defaulted. split; [exact Hrun|]. split.
    + exact (Hkept "title" eq_refl).
    + exact (Hfilled (scalar "status" true (VStr "draft") no_hooks)
               (or_intror (or_introl eq_refl)) eq_refl).
Defined.

(** The list hook stamps its slug on the input, and what it returns is what
    [_resolveInput] returns. *)
Lemma list_resolveInput_has_last_word_witness :
  fst (_resolveInput Slugged marjorie None anyone Create (VObj marjorie) [])
  = Ret [("name", VStr "Marjorie"); ("slug", VStr "user")].
Proof.
  rewrite (list_resolveInput_has_last_word Slugged marjorie None anyone Create
             (VObj marjorie) [] with_slug eq_refl).
  - reflexivity.
  - split; repeat constructor.
    + eexists. reflexivity.
    + intros hook. discriminate.
Defined.

(** The shoe size is no field of a user: the resolved data holds the name
    and no shoe size. *)
Lemma _resolveInput_keeps_declared_fields_witness :
  fst (_resolveInput User marjorie_and_more None anyone Create
         (VObj marjorie_and_more) [])
  = Ret marjorie
  /\ (has_key marjorie "shoeSize" = true
      <-> has_key marjorie_and_more "shoeSize" = true
          /\ exists field, In field (fields User) /\ path field = "shoeSize").
Proof.
  split.
  - vm_compute. reflexivity.
  - apply (_resolveInput_keeps_declared_fields User marjorie_and_more None anyone
             Create (VObj marjorie_and_more) []
             (snd (_resolveInput User marjorie_and_more None anyone Create
                     (VObj marjorie_and_more) []))
             marjorie eq_refl).
    vm_compute. reflexivity.
Defined.

(** A user has no relationship field: the input is returned as it is. *)
Lemma _resolveRelationship_keeps_other_fields_witness :
  _resolveRelationship User marjorie None anyone None 0 empty_world
  = (Ret marjorie, empty_world).
Proof.
  apply (proj2 (_resolveRelationship_keeps_other_fields User marjorie None anyone
                  None 0 empty_world)).
  intros k field [<-|[]] [= <-]. reflexivity.
Defined.

(** The [afterChange] phase of a post with a title: the built-in of the
    title, then the hook of the list. *)
Lemma _runHook_order_witness :
  let args := HookArgs None None (VObj untitled) (Some untitled) in
  _runHook Post anyone args (Some untitled) afterChange []
  = (Ret tt,
     [HookCall "Post" afterChange (FieldBuiltin "title") args;
      HookCall "Post" afterChange ListHook args]).
Proof.
  intros args.
  rewrite (_runHook_order Post anyone args untitled afterChange []).
  - reflexivity.
  - split; repeat constructor.
  - intros hook [= <-]. reflexivity.
Defined.

(** Marge is an administrator: her delete is refused with the message of the
    field hook, and she is still stored. *)
Lemma refused_delete_never_reaches_storage_witness :
  let w := World ([marge], []) [] [] [] in
  let r := _deleteSingle resolveBacklinks Staff marge anyone None w in
  messages_of (fst r) = ["Administrators stay"]
  /\ store (snd r) = ([marge], []).
Proof.
  intros w r. subst r.
  rewrite (refused_delete_never_reaches_storage resolveBacklinks Staff marge anyone
             None w (snd (enter None w))).
  - split; reflexivity.
  - reflexivity.
  - split; repeat constructor.
  - discriminate.
Defined.

(** Nothing to create and nothing to delete. *)
Lemma empty_batches_do_nothing_witness :
  createManyMutation resolveBacklinks User [] anyone None family = (Ret [], family)
  /\ deleteManyMutation resolveBacklinks User [] anyone None family
     = (Ret [], family).
Proof.
  split.
  - exact (proj1 (empty_batches_do_nothing resolveBacklinks User anyone None family)
             eq_refl).
  - exact (proj2 (empty_batches_do_nothing resolveBacklinks User anyone None family)
             eq_refl).
Defined.

(** An update of the name alone passes the required check although a user
    needs an email; an update that sets the email to [null] is refused. *)
Lemma update_checks_mentioned_required_fields_witness :
  let no_email : obj := [("email", VPrim PNull)] in
  _validateInput User marjorie (Some lisa) anyone Update (VObj marjorie) []
  = _validateHook User anyone
      (HookArgs (Some marjorie) (Some lisa) (VObj marjorie) None)
      (_fieldsFromObject User marjorie) Update validateInput []
  /\ exists errors,
       _validateInput User no_email (Some lisa) anyone Update (VObj no_email) []
       = (Throw (validation_failure User errors Update (VObj no_email)), [])
       /\ In (required_message "email") (map msg errors).
Proof.
  intros no_email. split.
  - apply (proj1 (update_checks_mentioned_required_fields User marjorie (Some lisa)
                    anyone (VObj marjorie) [])).
    intros field [<-|[<-|[<-|[]]]] Hrequired Hrel Hkey;
      first [reflexivity | discriminate].
  - apply (proj2 (update_checks_mentioned_required_fields User no_email (Some lisa)
                    anyone (VObj no_email) [])
             (scalar "email" true VUndefined no_hooks));
      first [reflexivity | right; left; reflexivity].
Defined.

(** Two users are created in one batch: two items come back. *)
Lemma createManyMutation_one_item_per_input_witness :
  let created : list obj :=
    [[("name", VStr "Lisa"); ("id", VPrim (PNum 1))];
     [("name", VStr "Marjorie"); ("id", VPrim (PNum 2))]] in
  let r := createManyMutation resolveBacklinks Author [lisa_input; marjorie] anyone
             None empty_world in
  fst r = Ret created /\ length created = length [lisa_input; marjorie].
Proof.
  intros created r. split.
  - vm_compute. reflexivity.
  - apply (createManyMutation_one_item_per_input resolveBacklinks Author
             [lisa_input; marjorie] anyone None empty_world (snd r) created).
    vm_compute. reflexivity.
Defined.

(** A review is created together with its author, whose [afterChange] hook
    throws: the hook of the review has run, and the create throws the error
    of the author's hook instead of returning the review. *)
Lemma root_hook_failure_stops_the_drain_witness :
  let r := _nestedMutation resolveBacklinks None anyone
             (create_mutation Review lisas_post None anyone) empty_world in
  fst r = Throw mail_is_down
  /\ afterChange_order (trace (snd r)) = ["Post"; "User"].
Proof.
  intros r. subst r.
  erewrite (root_hook_failure_stops_the_drain resolveBacklinks anyone
              (create_mutation Review lisas_post None anyone) empty_world
              _ _ _ _ _ _ _ []);
    cycle 1.
  - lazy. reflexivity.
  - lazy. reflexivity.
  - lazy. reflexivity.
  - lazy. reflexivity.
  - lazy. reflexivity.
  - lazy. reflexivity.
  - split; reflexivity.
Defined.

(** User 9 is not stored: the storage answers the update with [null], and
    the update throws. *)
Lemma update_of_vanished_item_throws_witness :
  fst (_updateSingle resolveBacklinks User (PNum 9) marjorie (Some lisa) anyone
         None family)
  = Throw (TypeError "Cannot convert undefined or null to object").
Proof.
  pose (w2 := snd (update_prepared User marjorie (Some lisa) anyone 0
                     (snd (enter None family)))).
  rewrite (update_of_vanished_item_throws resolveBacklinks User (PNum 9) marjorie
             (Some lisa) anyone family marjorie w2 (store w2)
             (log (Storage "User" (UpdateItem (PNum 9) marjorie))
                (set_store w2 (store w2)))
             [] [] []).
  - reflexivity.
  - vm_compute. reflexivity.
  - vm_compute. reflexivity.
  - vm_compute. reflexivity.
  - vm_compute. reflexivity.
Defined.

(** *** Where the code departs from the specification *)

(** C5. Every requested id is named by [id_not_in], and yet the batch
    lookup sends a query for them and returns their items: the ids are falsy
    ([0] and the empty string), and the code keeps the truthy ids only when
    it collects the disallowed ones. The lookup of one item refuses each of
    these ids under the same clause, without a query. *)
Theorem falsy_disallowed_ids_are_returned :
  let ids := [PNum 0; PStr EmptyString] in
  let q := QueryArgs None (Where PUndefined PUndefined (Some ids) (Some []) []) [] in
  (forall id, In id ids ->
     exists l, w_id_not_in all_but_the_falsy = Some l /\ In id l)
  /\ getAccessControlledItems User ids (AccessWhere all_but_the_falsy) zero_and_blank
     = (Ret [zero; blank], log (Storage "User" (ItemsQuery q)) zero_and_blank)
  /\ (forall id, In id ids ->
        getAccessControlledItem User id (AccessWhere all_but_the_falsy) anyone
          Delete (Some "deleteUsers") zero_and_blank
        = (Throw (access_denied Delete anyone (Some "deleteUsers")
                    [("itemId", VPrim id)]), zero_and_blank)).
Proof.
  intros ids q. split; [|split].
  - intros id Hid. eexists. split; [reflexivity | exact Hid].
  - reflexivity.
  - intros id [<-|[<-|[]]]; reflexivity.
Qed.

(** Homer is refused by the field hook of the name and would be refused by
    the list hook as well; the error raised holds the message of the field
    hook only. *)
Lemma validation_drops_list_failure :
  let args := HookArgs (Some homer) None (VObj homer) None in
  let r := createMutation resolveBacklinks User homer anyone None empty_world in
  map msg (added (no_homers anyone args)) = ["Sorry, no Homers allowed"]
  /\ messages_of (fst r) = ["Name is too short"]
  /\ ~ In "Sorry, no Homers allowed" (messages_of (fst r)).
Proof.
  repeat split.
  vm_compute. intros [H|[]]. discriminate.
Qed.

(** A post created together with its author: the author is the nested
    write, and its [afterChange] hook runs after the one of the post. *)
Lemma nested_afterChange_runs_last :
  let r := createMutation resolveBacklinks Post lisas_post anyone None empty_world in
  fst r = Ret [("status", VStr "draft"); ("title", VStr "Hi");
               ("author", VPrim (PNum 1)); ("id", VPrim (PNum 1))]
  /\ afterChange_order (trace (snd r)) = ["Post"; "User"].
Proof. split; reflexivity. Qed.

(** The update of a field the caller may not write is refused, but only
    after the storage was asked for the item. *)
Lemma field_check_follows_storage_read :
  let r := updateMutation resolveBacklinks User (PNum 1)
             [("isAdmin", VPrim (PBool true))] editor None family in
  fst r = Throw (field_access_denied Update editor (Some "updateUser")
                   [("itemId", VPrim (PNum 1))] ["isAdmin"])
  /\ List.filter is_storage (trace (snd r)) = [Storage "User" (FindById (PNum 1))].
Proof. split; reflexivity. Qed.

(** The status of a post is required and has a default: a post created
    without a status passes validation and is stored. *)
Lemma default_fills_required_field :
  let r := createMutation resolveBacklinks Post untitled anyone None empty_world in
  has_key untitled "status" = false
  /\ map (fun f => (path f, isRequired f, isRelationship f)) (fields Post)
     = [("title", false, false); ("status", true, false); ("author", false, true)]
  /\ fst r = Ret [("status", VStr "draft"); ("title", VStr "Hi");
                  ("id", VPrim (PNum 1))]
  /\ List.filter is_storage_write (trace (snd r))
     = [Storage "Post" (CreateItem [("status", VStr "draft"); ("title", VStr "Hi")])].
Proof. repeat split. Qed.

End KeystoneFacts.
